(** * cslibs_utility: the fixed-capacity [buffered_vector] and the
      background-thread [CSVWriter]

    The development embeds two headers of the library:

    - [cslibs_utility::buffered::buffered_vector], a [std::vector] used as
      a fixed buffer together with a manually tracked size;
    - [cslibs_utility::logger::CSVWriter], which renders rows to text on
      the calling threads and persists them from one worker thread.

    The vector is a pure record with explicit outcomes for [throw] and for
    accesses the C++ standard leaves undefined.  The writer is a labelled
    transition system: one program counter per thread, one atomic step per
    source statement, and a scheduler that picks the next thread. *)

From stdpp Require Import base list strings pretty.
From Stdlib Require Import ZArith Lia Ascii.

(** ** Outcomes of a C++ call *)

(** A call returns a value, leaves through [throw std::runtime_error(what)],
    or runs into behaviour the language leaves undefined. *)
Inductive outcome (A : Type) : Type :=
| Returns (a : A)
| Throws (what : string)
| Undefined.
Arguments Returns {A} a.
Arguments Throws {A} what.
Arguments Undefined {A}.

(** ** buffered_vector.hpp *)

Module buffered.

(** [size_] and [data_] are the members of the class.  [data_ptr_] is set
    to [data_.data()] by every constructor and by both [resize]s, so
    [data_ptr_[i]] is element [i] of [data_] whenever [i] is below
    [data_.size()], and is outside the allocation otherwise.  The
    implicitly generated copy and move operations, which leave
    [data_ptr_] pointing into the buffer of the source vector, are not
    part of this model. *)
Record buffered_vector (T : Type) : Type := mk_vector {
  size_ : nat;
  data_ : list T
}.
Arguments mk_vector {T} size_ data_.
Arguments size_ {T} b.
Arguments data_ {T} b.

Section Operations.
Context {T : Type}.

(** [buffered_vector()] *)
Definition create : buffered_vector T := mk_vector 0 [].

(** [buffered_vector(size)]: capacity = size, filled with [T()]. *)
Definition create_sized (size : nat) (dflt : T) : buffered_vector T :=
  mk_vector size (replicate size dflt).

(** [buffered_vector(size, capacity, default_value)].  The constructor
    body is [assert(size <= capacity)]; [ndebug] tells whether the
    assertion is compiled out.  A failed assertion aborts the process, so
    no vector is produced. *)
Definition create_with_capacity (ndebug : bool) (size capacity : nat)
    (default_value : T) : option (buffered_vector T) :=
  if ndebug || bool_decide (size ≤ capacity)
  then Some (mk_vector size (replicate capacity default_value))
  else None.

Definition capacity (v : buffered_vector T) : nat := length (data_ v).
Definition size (v : buffered_vector T) : nat := size_ v.

(** [data_ptr_[i]] *)
Definition deref (v : buffered_vector T) (i : nat) : outcome T :=
  match data_ v !! i with
  | Some x => Returns x
  | None => Undefined
  end.

(** [operator[]] *)
Definition subscript (v : buffered_vector T) (i : nat) : outcome T :=
  deref v i.

(** [at] *)
Definition at_ (v : buffered_vector T) (i : nat) : outcome T :=
  if bool_decide (size_ v ≤ i)
  then Throws "Index out of bounds!"
  else deref v i.

(** [std::vector::resize(n, value)] *)
Definition vector_resize (n : nat) (value : T) (l : list T) : list T :=
  take n l ++ replicate (n - length l) value.

(** [resize(size, default_value)] *)
Definition resize (size : nat) (default_value : T)
    (v : buffered_vector T) : buffered_vector T :=
  mk_vector 0 (vector_resize size default_value (data_ v)).

(** [resize(size, capacity, default_value)] *)
Definition resize_with_capacity (size capacity : nat) (default_value : T)
    (v : buffered_vector T) : buffered_vector T :=
  mk_vector size (vector_resize capacity default_value (data_ v)).

(** [push_back]: the assignment [data_ptr_[size_] = value] is inside the
    buffer only when [size_] is below [data_.size()]. *)
Definition push_back (value : T) (v : buffered_vector T)
    : outcome (buffered_vector T) :=
  if bool_decide (size_ v = length (data_ v))
  then Throws "Buffered vector reached the capacity limit!"
  else if bool_decide (size_ v < length (data_ v))
       then Returns (mk_vector (S (size_ v)) (<[size_ v := value]> (data_ v)))
       else Undefined.

(** [emplace_back] has the same body as [push_back]. *)
Definition emplace_back (value : T) (v : buffered_vector T)
    : outcome (buffered_vector T) :=
  if bool_decide (size_ v = length (data_ v))
  then Throws "Buffered vector reached the capacity limit!"
  else if bool_decide (size_ v < length (data_ v))
       then Returns (mk_vector (S (size_ v)) (<[size_ v := value]> (data_ v)))
       else Undefined.

(** [clear] *)
Definition clear (v : buffered_vector T) : buffered_vector T :=
  mk_vector 0 (data_ v).

(** The relation the constructors document and assert. *)
Definition within_capacity (v : buffered_vector T) : Prop :=
  size v ≤ capacity v.

(** [front()] is [data_.front()]: the first element of the buffer,
    whatever [size_] is; on an empty buffer [std::vector::front] is
    undefined. *)
Definition front (v : buffered_vector T) : outcome T :=
  match data_ v with
  | x :: _ => Returns x
  | [] => Undefined
  end.

(** What [std::vector::at] gives: the element, or [std::out_of_range]. *)
Inductive checked (A : Type) : Type :=
| Got (a : A)
| OutOfRange.

(** [std::vector::at(n)] *)
Definition vector_at (l : list T) (n : N) : checked T :=
  match l !! N.to_nat n with
  | Some x => Got _ x
  | None => OutOfRange _
  end.

(** [size_ - 1] in [std::size_t]: at [size_ = 0] it wraps around to the
    largest value. *)
Definition size_minus_one (v : buffered_vector T) : N :=
  ((N.of_nat (size_ v) + 2 ^ 64 - 1) mod 2 ^ 64)%N.

(** [back()] is [data_.at(size_ - 1)]. *)
Definition back (v : buffered_vector T) : checked T :=
  vector_at (data_ v) (size_minus_one v).

(** The iterators, as positions in [data_]: [begin()] is
    [data_.begin()], [end()] is [data_.begin() + size_], [limit()] is
    [data_.end()]. *)
Definition begin (v : buffered_vector T) : nat := 0.
Definition end_ (v : buffered_vector T) : nat := size_ v.
Definition limit (v : buffered_vector T) : nat := length (data_ v).

(** [*it] for an iterator at position [pos]: only positions inside the
    buffer can be dereferenced. *)
Definition deref_at (v : buffered_vector T) (pos : nat) : outcome T :=
  deref v pos.

(** [for (auto it = first; it != last; ++it) visit(it)], where [visit]
    reads [*it], with [fuel] steps left: the elements visited, in order.
    Walking past [limit()] dereferences outside the buffer. *)
Fixpoint walk (v : buffered_vector T) (fuel first last : nat)
    : outcome (list T) :=
  if bool_decide (first = last) then Returns []
  else match fuel with
       | 0 => Undefined
       | S fuel' =>
           match deref_at v first with
           | Returns x =>
               match walk v fuel' (S first) last with
               | Returns xs => Returns (x :: xs)
               | Throws what => Throws what
               | Undefined => Undefined
               end
           | Throws what => Throws what
           | Undefined => Undefined
           end
       end.

(** A range-for over the vector: from [begin()] to [end()]. *)
Definition contents (v : buffered_vector T) : outcome (list T) :=
  walk v (end_ v) (begin v) (end_ v).

(** [for (const T &x : xs) v.push_back(x);] : the first exception ends
    the loop. *)
Fixpoint push_all (xs : list T) (v : buffered_vector T)
    : outcome (buffered_vector T) :=
  match xs with
  | [] => Returns v
  | x :: xs' =>
      match push_back x v with
      | Returns v' => push_all xs' v'
      | Throws what => Throws what
      | Undefined => Undefined
      end
  end.

End Operations.
Arguments Got {A} a.
Arguments OutOfRange {A}.
End buffered.

(** ** synchronized_queue.hpp *)

Module synchronized.

(** [std::queue<_Tp> q_], front first.  Every member function holds
    [mutex_] from its first statement to its return, so calls from
    different threads take effect one after the other; a call is
    modelled by its effect on [q_]. *)
Record queue (T : Type) : Type := mk_queue {
  q_ : list T
}.
Arguments mk_queue {T} q_.
Arguments q_ {T} q.

Section Operations.
Context {T : Type}.

(** [queue()] *)
Definition create : queue T := mk_queue [].

(** [empty()] *)
Definition empty (q : queue T) : bool :=
  match q_ q with [] => true | _ :: _ => false end.

(** [hasElements()] *)
Definition hasElements (q : queue T) : bool := negb (empty q).

(** [size()] *)
Definition size (q : queue T) : nat := length (q_ q).

(** [pop()]: [q_.front()] and [q_.pop()] on an empty [std::queue] are
    undefined. *)
Definition pop (q : queue T) : outcome (T * queue T) :=
  match q_ q with
  | t :: rest => Returns (t, mk_queue rest)
  | [] => Undefined
  end.

(** [top()] *)
Definition top (q : queue T) : outcome T :=
  match q_ q with
  | t :: _ => Returns t
  | [] => Undefined
  end.

(** [emplace(t)] *)
Definition emplace (t : T) (q : queue T) : queue T :=
  mk_queue (q_ q ++ [t]).

(** [push(t)] *)
Definition push (t : T) (q : queue T) : queue T :=
  mk_queue (q_ q ++ [t]).

(** [for (const auto &t : ts) q.push(t);] *)
Definition push_all (ts : list T) (q : queue T) : queue T :=
  foldl (λ acc t, push t acc) q ts.

(** [n] calls of [pop()], the values in the order they were returned. *)
Fixpoint pop_many (n : nat) (q : queue T) : outcome (list T * queue T) :=
  match n with
  | 0 => Returns ([], q)
  | S n' =>
      match pop q with
      | Returns (t, q') =>
          match pop_many n' q' with
          | Returns (ts, q'') => Returns (t :: ts, q'')
          | Throws what => Throws what
          | Undefined => Undefined
          end
      | Throws what => Throws what
      | Undefined => Undefined
      end
  end.

End Operations.
End synchronized.

(** ** csv_writer.hpp *)

Module logger.

(** *** Rendering of field values *)

(** A [double] value: a finite value is [(-1)^neg * m * 2^e]; the other
    two shapes are the infinities and the NaNs with their sign bit. *)
Inductive double : Type :=
| DFinite (neg : bool) (m : N) (e : Z)
| DInfinity (neg : bool)
| DNaN (neg : bool).

(** The line feed character, ["\n"] in the source. *)
Definition newline : string := String "010"%char "".

(** One value of the pack [Types...].  [FInt] stands for the integral
    types that [std::to_string] accepts, [FDouble] for the floating-point
    ones, [FString] for [std::string]. *)
Inductive field : Type :=
| FInt (z : Z)
| FDouble (d : double)
| FString (s : string).

(** Nearest integer to [num / den], ties to even: [printf] rounds the
    exact value in the default rounding mode. *)
Definition round_half_even (num den : N) : N :=
  let q := (num / den)%N in
  let r := (num mod den)%N in
  if (den <? 2 * r)%N then (q + 1)%N
  else if (2 * r =? den)%N && N.odd q then (q + 1)%N
  else q.

(** [|m * 2^e| * 10^6], rounded to an integer. *)
Definition micro_units (m : N) (e : Z) : N :=
  match e with
  | Z0 => (m * 10 ^ 6)%N
  | Zpos p => (m * 2 ^ Npos p * 10 ^ 6)%N
  | Zneg p => round_half_even (m * 10 ^ 6) (2 ^ Npos p)
  end.

Definition sign_text (neg : bool) : string := if neg then "-" else "".

(** Six digits, zero-padded on the left. *)
Definition six_digits (n : N) : string :=
  let s := pretty n in
  String.concat "" (replicate (6 - String.length s) "0") +:+ s.

(** [std::to_string(double)] up to C++23 (the build enables C++17):
    the text of [printf("%f", d)], that is fixed notation with six
    digits after the point. *)
Definition to_string_double (d : double) : string :=
  match d with
  | DFinite neg m e =>
      let u := micro_units m e in
      sign_text neg +:+ pretty (u / 10 ^ 6)%N +:+ "." +:+
      six_digits (u mod 10 ^ 6)%N
  | DInfinity neg => sign_text neg +:+ "inf"
  | DNaN neg => sign_text neg +:+ "nan"
  end.

(** [std::to_string] of an integral value: [printf("%d", z)]. *)
Definition to_string_int (z : Z) : string := pretty z.

(** [toString<T>]: the primary template calls [std::to_string], the
    specialisation for [std::string] returns its argument. *)
Definition toString (t : field) : string :=
  match t with
  | FInt z => to_string_int z
  | FDouble d => to_string_double d
  | FString str => str
  end.

(** [buildString(t, ts...)]: the one-argument overload ends the
    recursion of the variadic one. *)
Fixpoint buildString (t : field) (ts : list field) : string :=
  match ts with
  | [] => toString t
  | t' :: ts' => toString t +:+ "," +:+ buildString t' ts'
  end.

(** The header block of [loop()]:
    [for (i = 0; i < size - 1; ++i) out_ << header_[i] << ",";
     out_ << header_[size - 1]; out_ << "\n";]
    With [size = 0] the bound [size - 1] wraps around and [header_[0]]
    is already outside the array: no text is defined. *)
Definition header_text (header : list string) : option string :=
  let size := length header in
  if bool_decide (size = 0) then None
  else
    Some (foldl (λ acc i, acc +:+ default "" (header !! i) +:+ ",")
                "" (seq 0 (size - 1))
          +:+ default "" (header !! (size - 1)) +:+ newline).

(** The text a row is specified to have: the renderings of its fields
    with one comma between neighbours. *)
Definition comma_joined (t : field) (ts : list field) : string :=
  String.concat "," (toString <$> (t :: ts)).

(** *** Threads and shared state *)

(** Who holds a [std::mutex]. *)
Inductive holder : Type :=
| ByWorker
| ByCaller (i : nat).

(** One call on the writer made by a client thread. *)
Inductive call : Type :=
| write (t : field) (ts : list field)
| destroy.

(** Where a client thread stands inside [write] or [~CSVWriter]. *)
Inductive caller_pc : Type :=
| CIdle
| CBuilt (string_built : string)
| CLocked (string_built : string)
| CPushed
| CNotified
| DStop
| DNotify
| DJoin.

Record caller : Type := mk_caller {
  pc : caller_pc;
  todo : list call
}.

(** Which of the two [dumpQ()] calls of [loop()] is running. *)
Inductive drain_site : Type :=
| InLoop
| Final.

(** Where the worker stands inside [loop()]. *)
Inductive worker_pc : Type :=
| WOpen
| WDiag
| WHeader
| WLock
| WTest
| WWait
| WBlocked
| WWoken
| WEmpty (k : drain_site)
| WQLock (k : drain_site)
| WPop (k : drain_site)
| WQUnlock (k : drain_site) (f : string)
| WOut (k : drain_site) (f : string)
| WFlush
| WClose
| WDone
| WUndefined.

(** [std::ofstream out_]: whether a file is attached, and the bytes
    accepted by the stream that have not reached the file yet. *)
Record ofstream : Type := mk_ofstream {
  is_open : bool;
  pending : string
}.

(** The members of [CSVWriter], the worker and client threads, and the
    two pieces of the environment the code touches: the file at [path_]
    ([None] while it does not exist) and [std::cerr]. *)
Record csv_state : Type := mk_state {
  out_ : ofstream;
  q_ : list string;
  q_mutex_ : option holder;
  notify_mutex_ : option holder;
  stop_ : bool;
  joinable : bool;
  worker : worker_pc;
  callers : list caller;
  file : option string;
  cerr : string
}.

(** What is fixed when the writer is constructed: the constructor
    arguments, whether the file system lets [path_] be opened for
    writing, what the file held before, and what each client thread is
    going to call. *)
Record config : Type := mk_config {
  header_ : list string;
  has_header_ : bool;
  path_ : string;
  can_open : bool;
  file_before : option string;
  programs : list (list call)
}.

(** Observable happenings, in the order the scheduler produced them. *)
Inductive event : Type :=
| EvOpen (ok : bool)
| EvDiag (msg : string)
| EvHeader (text : string)
| EvRow (line : string)
| EvFlush
| EvClose
| EvPush (i : nat) (line : string)
| EvNotify (i : nat) (woke : bool)
| EvStop (i : nat)
| EvJoin (i : nat).

(** The scheduler's choices: run the worker, run client [i], wake the
    worker without a notification (condition variables may do that), or
    let the stream buffer write itself through to the file. *)
Inductive action : Type :=
| RunWorker
| RunCaller (i : nat)
| Spurious
| BufferSync.

(** *** Field updates *)

Definition with_out (o : ofstream) (s : csv_state) : csv_state :=
  mk_state o (q_ s) (q_mutex_ s) (notify_mutex_ s) (stop_ s) (joinable s)
           (worker s) (callers s) (file s) (cerr s).
Definition with_q (q : list string) (s : csv_state) : csv_state :=
  mk_state (out_ s) q (q_mutex_ s) (notify_mutex_ s) (stop_ s) (joinable s)
           (worker s) (callers s) (file s) (cerr s).
Definition with_q_mutex (m : option holder) (s : csv_state) : csv_state :=
  mk_state (out_ s) (q_ s) m (notify_mutex_ s) (stop_ s) (joinable s)
           (worker s) (callers s) (file s) (cerr s).
Definition with_notify_mutex (m : option holder) (s : csv_state)
    : csv_state :=
  mk_state (out_ s) (q_ s) (q_mutex_ s) m (stop_ s) (joinable s)
           (worker s) (callers s) (file s) (cerr s).
Definition with_stop (b : bool) (s : csv_state) : csv_state :=
  mk_state (out_ s) (q_ s) (q_mutex_ s) (notify_mutex_ s) b (joinable s)
           (worker s) (callers s) (file s) (cerr s).
Definition with_joinable (b : bool) (s : csv_state) : csv_state :=
  mk_state (out_ s) (q_ s) (q_mutex_ s) (notify_mutex_ s) (stop_ s) b
           (worker s) (callers s) (file s) (cerr s).
Definition with_worker (w : worker_pc) (s : csv_state) : csv_state :=
  mk_state (out_ s) (q_ s) (q_mutex_ s) (notify_mutex_ s) (stop_ s)
           (joinable s) w (callers s) (file s) (cerr s).
Definition with_callers (cs : list caller) (s : csv_state) : csv_state :=
  mk_state (out_ s) (q_ s) (q_mutex_ s) (notify_mutex_ s) (stop_ s)
           (joinable s) (worker s) cs (file s) (cerr s).
Definition with_file (f : option string) (s : csv_state) : csv_state :=
  mk_state (out_ s) (q_ s) (q_mutex_ s) (notify_mutex_ s) (stop_ s)
           (joinable s) (worker s) (callers s) f (cerr s).
Definition with_cerr (e : string) (s : csv_state) : csv_state :=
  mk_state (out_ s) (q_ s) (q_mutex_ s) (notify_mutex_ s) (stop_ s)
           (joinable s) (worker s) (callers s) (file s) e.

(** *** Library primitives *)

(** [out_ << text] *)
Definition stream_put (text : string) (s : csv_state) : csv_state :=
  if is_open (out_ s)
  then with_out (mk_ofstream true (pending (out_ s) +:+ text)) s
  else s.

(** The stream buffer hands its bytes to the file. *)
Definition stream_sync (s : csv_state) : csv_state :=
  if is_open (out_ s)
  then with_file (Some (default "" (file s) +:+ pending (out_ s)))
         (with_out (mk_ofstream true "") s)
  else s.

(** [out_.close()]: writes the buffer through and detaches the file. *)
Definition stream_close (s : csv_state) : csv_state :=
  with_out (mk_ofstream false "") (stream_sync s).

(** [notify_log_.notify_one()]: the worker is the only thread that ever
    waits on the condition variable; a notification that finds it not
    waiting has no effect. *)
Definition worker_waiting (s : csv_state) : bool :=
  match worker s with WBlocked => true | _ => false end.

Definition notify_one (s : csv_state) : csv_state :=
  if worker_waiting s then with_worker WWoken s else s.

(** The site to return to when [dumpQ()] finds the queue empty. *)
Definition after_drain (k : drain_site) : worker_pc :=
  match k with InLoop => WTest | Final => WFlush end.

(** The diagnostic of [loop()]. *)
Definition open_diagnostic (path : string) : string :=
  "[CSVWriter]: Could not open path '" +:+ path +:+ "'!" +:+ newline.

(** *** One step of the worker: [loop()] *)

Definition worker_step (c : config) (s : csv_state)
    : option (csv_state * list event) :=
  match worker s with
  | WOpen =>
      (* out_.open(path_); if (!out_.is_open()) *)
      if can_open c
      then Some (with_worker WHeader
                   (with_file (Some "") (with_out (mk_ofstream true "") s)),
                 [EvOpen true])
      else Some (with_worker WDiag s, [EvOpen false])
  | WDiag =>
      (* std::cerr << ...; return; *)
      Some (with_worker WDone
              (with_cerr (cerr s +:+ open_diagnostic (path_ c)) s),
            [EvDiag (open_diagnostic (path_ c))])
  | WHeader =>
      (* if (has_header_) { ... } *)
      if has_header_ c
      then match header_text (header_ c) with
           | Some text =>
               Some (with_worker WLock (stream_put text s), [EvHeader text])
           | None => Some (with_worker WUndefined s, [])
           end
      else Some (with_worker WLock s, [])
  | WLock =>
      (* std::unique_lock<std::mutex> notify_lock(notify_mutex_); *)
      match notify_mutex_ s with
      | None =>
          Some (with_worker WTest (with_notify_mutex (Some ByWorker) s), [])
      | Some _ => None
      end
  | WTest =>
      (* while (!stop_) *)
      if stop_ s
      then Some (with_worker (WEmpty Final) s, [])
      else Some (with_worker WWait s, [])
  | WWait =>
      (* notify_log_.wait(notify_lock): release the mutex and block *)
      Some (with_worker WBlocked (with_notify_mutex None s), [])
  | WBlocked => None
  | WWoken =>
      (* wait() re-acquires the mutex before it returns *)
      match notify_mutex_ s with
      | None =>
          Some (with_worker (WEmpty InLoop)
                  (with_notify_mutex (Some ByWorker) s), [])
      | Some _ => None
      end
  | WEmpty k =>
      (* while (!q_.empty()) *)
      match q_ s with
      | [] => Some (with_worker (after_drain k) s, [])
      | _ :: _ => Some (with_worker (WQLock k) s, [])
      end
  | WQLock k =>
      (* std::unique_lock<std::mutex> q_lock(q_mutex_); *)
      match q_mutex_ s with
      | None => Some (with_worker (WPop k) (with_q_mutex (Some ByWorker) s), [])
      | Some _ => None
      end
  | WPop k =>
      (* auto f = q_.front(); q_.pop(); *)
      match q_ s with
      | f :: rest => Some (with_worker (WQUnlock k f) (with_q rest s), [])
      | [] => Some (with_worker WUndefined s, [])
      end
  | WQUnlock k f =>
      (* q_lock.unlock(); *)
      Some (with_worker (WOut k f) (with_q_mutex None s), [])
  | WOut k f =>
      (* out_ << f << "\n"; *)
      Some (with_worker (WEmpty k) (stream_put (f +:+ newline) s), [EvRow f])
  | WFlush =>
      (* out_.flush(); *)
      Some (with_worker WClose (stream_sync s), [EvFlush])
  | WClose =>
      (* if (out_.is_open()) out_.close(); then the end of loop()
         releases notify_lock *)
      if is_open (out_ s)
      then Some (with_worker WDone
                   (with_notify_mutex None (stream_close s)), [EvClose])
      else Some (with_worker WDone (with_notify_mutex None s), [])
  | WDone => None
  | WUndefined => None
  end.

(** *** One step of a client thread: [write] and [~CSVWriter] *)

Definition set_caller (i : nat) (cl : caller) (s : csv_state) : csv_state :=
  with_callers (<[i := cl]> (callers s)) s.

Definition caller_step (i : nat) (s : csv_state)
    : option (csv_state * list event) :=
  match callers s !! i with
  | None => None
  | Some cl =>
      match pc cl with
      | CIdle =>
          match todo cl with
          | [] => None
          | write t ts :: rest =>
              (* std::string string_built = buildString(ts...); *)
              Some (set_caller i (mk_caller (CBuilt (buildString t ts)) rest) s,
                    [])
          | destroy :: rest =>
              (* if (worker_thread_.joinable()) *)
              if joinable s
              then Some (set_caller i (mk_caller DStop rest) s, [])
              else Some (set_caller i (mk_caller CIdle rest) s, [])
          end
      | CBuilt line =>
          (* std::unique_lock<std::mutex> q_lock(q_mutex_); *)
          match q_mutex_ s with
          | None =>
              Some (set_caller i (mk_caller (CLocked line) (todo cl))
                      (with_q_mutex (Some (ByCaller i)) s), [])
          | Some _ => None
          end
      | CLocked line =>
          (* q_.push(string_built); *)
          Some (set_caller i (mk_caller CPushed (todo cl))
                  (with_q (q_ s ++ [line]) s), [EvPush i line])
      | CPushed =>
          (* notify_log_.notify_one(); *)
          Some (set_caller i (mk_caller CNotified (todo cl)) (notify_one s),
                [EvNotify i (worker_waiting s)])
      | CNotified =>
          (* q_lock goes out of scope *)
          Some (set_caller i (mk_caller CIdle (todo cl))
                  (with_q_mutex None s), [])
      | DStop =>
          (* stop_ = true; *)
          Some (set_caller i (mk_caller DNotify (todo cl)) (with_stop true s),
                [EvStop i])
      | DNotify =>
          (* notify_log_.notify_one(); *)
          Some (set_caller i (mk_caller DJoin (todo cl)) (notify_one s),
                [EvNotify i (worker_waiting s)])
      | DJoin =>
          (* worker_thread_.join(); returns once loop() has returned *)
          match worker s with
          | WDone =>
              Some (set_caller i (mk_caller CIdle (todo cl))
                      (with_joinable false s), [EvJoin i])
          | _ => None
          end
      end
  end.

(** *** The transition system *)

Definition step (c : config) (a : action) (s : csv_state)
    : option (csv_state * list event) :=
  match a with
  | RunWorker => worker_step c s
  | RunCaller i => caller_step i s
  | Spurious =>
      if worker_waiting s then Some (with_worker WWoken s, []) else None
  | BufferSync =>
      if is_open (out_ s) then Some (stream_sync s, []) else None
  end.

(** The state both constructors leave behind: members initialised, the
    worker thread created and about to enter [loop()], every client
    thread in front of its first call. *)
Definition init (c : config) : csv_state :=
  mk_state (mk_ofstream false "") [] None None false true WOpen
           (mk_caller CIdle <$> programs c) (file_before c) "".

(** Run a schedule from a state; [None] when some chosen thread cannot
    move. *)
Fixpoint run (c : config) (sched : list action) (s : csv_state)
    : option (csv_state * list event) :=
  match sched with
  | [] => Some (s, [])
  | a :: sched' =>
      match step c a s with
      | None => None
      | Some (s', evs) =>
          match run c sched' s' with
          | None => None
          | Some (s'', evs') => Some (s'', evs ++ evs')
          end
      end
  end.

(** States and histories the scheduler can produce. *)
Inductive reachable (c : config) : list event → csv_state → Prop :=
| reachable_init : reachable c [] (init c)
| reachable_step tr s a s' evs :
    reachable c tr s →
    step c a s = Some (s', evs) →
    reachable c (tr ++ evs) s'.

(** *** Reading a history *)

(** The lines pushed on [q_], in push order. *)
Definition pushes (tr : list event) : list string :=
  omap (λ e, match e with EvPush _ line => Some line | _ => None end) tr.

(** The lines the worker sent to [out_], in that order. *)
Definition rows_out (tr : list event) : list string :=
  omap (λ e, match e with EvRow line => Some line | _ => None end) tr.


Definition is_stop (e : event) : bool :=
  match e with EvStop _ => true | _ => false end.

Definition is_join (e : event) : bool :=
  match e with EvJoin _ => true | _ => false end.

(** The part of a history that precedes the first [stop_ = true]. *)
Fixpoint before_stop (tr : list event) : list event :=
  match tr with
  | [] => []
  | e :: tr' => if is_stop e then [] else e :: before_stop tr'
  end.

(** Everything [out_] has been given so far, on disk or still buffered. *)
Definition written (s : csv_state) : string :=
  default "" (file s) +:+ pending (out_ s).

(** Texts put one after the other. *)
Definition flat (texts : list string) : string :=
  foldr String.append "" texts.

(** A row as it stands in the file: it ends its line. *)
Definition as_line (row : string) : string := row +:+ newline.

(** The text of a list of rows in the file. *)
Definition lines_text (rows : list string) : string :=
  flat (as_line <$> rows).

(** The texts the worker sent to [out_], header and rows alike. *)
Definition sent (tr : list event) : list string :=
  omap (λ e, match e with
             | EvHeader text => Some text
             | EvRow line => Some (as_line line)
             | _ => None
             end) tr.

(** The opens and closes of the file handle. *)
Definition handle_events (tr : list event) : list event :=
  omap (λ e, match e with EvOpen _ | EvClose => Some e | _ => None end) tr.

Definition stopped (tr : list event) : bool := existsb is_stop tr.

Definition joined (tr : list event) : bool := existsb is_join tr.

(** The lines a program enqueues, in call order. *)
Definition lines_of (prog : list call) : list string :=
  omap (λ k, match k with
             | write t ts => Some (buildString t ts)
             | destroy => None
             end) prog.

(** *** Stages of the worker *)

(** The line the worker has popped and not yet sent to [out_]. *)
Definition in_hand (w : worker_pc) : list string :=
  match w with
  | WQUnlock _ f | WOut _ f => [f]
  | _ => []
  end.

(** The worker is past the header block of [loop()]. *)
Definition header_done (w : worker_pc) : bool :=
  match w with
  | WOpen | WDiag | WHeader | WUndefined => false
  | _ => true
  end.

(** The worker has left the [while (!stop_)] loop. *)
Definition leaving (w : worker_pc) : bool :=
  match w with
  | WEmpty Final | WQLock Final | WPop Final | WQUnlock Final _
  | WOut Final _ | WFlush | WClose | WDone => true
  | _ => false
  end.

(** The worker has finished the final [dumpQ()]. *)
Definition drained (w : worker_pc) : bool :=
  match w with
  | WFlush | WClose | WDone => true
  | _ => false
  end.

(** A client thread is between the acquisition and the release of
    [q_lock]. *)
Definition in_critical (p : caller_pc) : bool :=
  match p with
  | CLocked _ | CPushed | CNotified => true
  | _ => false
  end.

(** The header line the configuration asks for, if any. *)
Definition header_block (c : config) : list string :=
  if has_header_ c
  then match header_text (header_ c) with Some t => [t] | None => [] end
  else [].

(** A configured header has at least one column, as
    [std::array<std::string, sizeof...(Types)>] has for a writer that
    can be written to. *)
Definition header_ok (c : config) : Prop :=
  has_header_ c = true → header_ c ≠ [].

(** The lines a client thread still has to push: the one it has built
    and not pushed yet, then those of the calls it has not started. *)
Definition pending_lines (cl : caller) : list string :=
  match pc cl with
  | CBuilt line | CLocked line => [line]
  | _ => []
  end ++ lines_of (todo cl).

(** The program of a thread that owns the writer: it writes some rows
    and then lets the writer go out of scope. *)
Definition owner_program (rows : list (field * list field)) : list call :=
  ((λ r, write r.1 r.2) <$> rows) ++ [destroy].

(** *** Invariants of the transition system *)

(** Every pushed line is in the file stream, in the worker's hand or
    still queued, in that order; [front()] is never called on an empty
    queue; the worker can only go wrong on a header without columns. *)
Definition queue_inv (c : config) (tr : list event) (s : csv_state) : Prop :=
  pushes tr = rows_out tr ++ in_hand (worker s) ++ q_ s ∧
  match worker s with
  | WQLock _ | WPop _ => q_ s ≠ []
  | WUndefined => has_header_ c = true ∧ header_text (header_ c) = None
  | _ => True
  end.

(** What [out_], the file and [std::cerr] hold at each stage of
    [loop()]. *)
Definition stream_inv (c : config) (tr : list event) (s : csv_state) : Prop :=
  sent tr =
    (if header_done (worker s) && can_open c then header_block c else []) ++
    (as_line <$> rows_out tr) ∧
  (header_done (worker s) = false → rows_out tr = []) ∧
  match worker s with
  | WOpen =>
      is_open (out_ s) = false ∧ pending (out_ s) = "" ∧
      file s = file_before c ∧ handle_events tr = [] ∧ cerr s = ""
  | WDiag =>
      can_open c = false ∧
      is_open (out_ s) = false ∧ pending (out_ s) = "" ∧
      file s = file_before c ∧ handle_events tr = [EvOpen false] ∧
      cerr s = ""
  | WDone =>
      is_open (out_ s) = false ∧ pending (out_ s) = "" ∧
      if can_open c
      then file s = Some (flat (sent tr)) ∧
           handle_events tr = [EvOpen true; EvClose] ∧ cerr s = ""
      else file s = file_before c ∧ sent tr = [] ∧
           handle_events tr = [EvOpen false] ∧
           cerr s = open_diagnostic (path_ c)
  | _ =>
      can_open c = true ∧
      is_open (out_ s) = true ∧ written s = flat (sent tr) ∧
      handle_events tr = [EvOpen true] ∧ cerr s = ""
  end.


(** [stop_] mirrors the history; the worker leaves its loop only after
    [stop_] was set; once the final [dumpQ()] is over, every line pushed
    before [stop_ = true] has been sent to [out_]. *)
Definition stop_inv (c : config) (tr : list event) (s : csv_state) : Prop :=
  stop_ s = stopped tr ∧
  (leaving (worker s) = true → can_open c = true → stop_ s = true) ∧
  (drained (worker s) = true → can_open c = true →
   pushes (before_stop tr) `prefix_of` rows_out tr).

(** Whoever is between locking and unlocking [q_mutex_] holds it. *)
Definition mutex_inv (s : csv_state) : Prop :=
  match worker s with
  | WPop _ | WQUnlock _ _ => q_mutex_ s = Some ByWorker
  | _ => True
  end ∧
  ∀ i cl, callers s !! i = Some cl → in_critical (pc cl) = true →
          q_mutex_ s = Some (ByCaller i).

(** [join()] returns only after [loop()] has returned. *)
Definition join_inv (tr : list event) (s : csv_state) : Prop :=
  joinable s = negb (joined tr) ∧
  (joined tr = true → worker s = WDone).

(** With one client thread, the lines pushed so far and those still to
    come make up the lines of its program. *)
Definition single_inv (prog : list call) (tr : list event) (s : csv_state)
    : Prop :=
  ∃ cl, callers s = [cl] ∧ pushes tr ++ pending_lines cl = lines_of prog.

(** The progress of an owner thread: before [stop_ = true] it is still
    writing or about to set the flag; afterwards nothing is left to
    push. *)
Definition owner_inv (tr : list event) (s : csv_state) : Prop :=
  ∃ cl, callers s = [cl] ∧
    if stopped tr
    then todo cl = [] ∧ pushes (before_stop tr) = pushes tr ∧
         match pc cl with
         | DNotify | DJoin => joined tr = false
         | CIdle => joined tr = true
         | _ => False
         end
    else joined tr = false ∧
         match pc cl with
         | DStop => todo cl = []
         | DNotify | DJoin => False
         | _ => ∃ rows, todo cl = owner_program rows
         end.

(** *** Concrete runs *)

(** The doubles 2.0 and 3.0 in binary64: a 53-bit significand and the
    exponent that goes with it. *)
Definition two : double := DFinite false 4503599627370496 (-51).
Definition three : double := DFinite false 6755399441055744 (-51).

(** [CSVWriter<int, double, std::string> w({"t","x","y"}, P);
     w.write(1, 2.0, "a"); w.write(2, 3.0, "b");] and the end of the
    scope, on a path that can be opened. *)
Definition header_example (P : string) (before : option string) : config :=
  mk_config ["t"; "x"; "y"] true P true before
    [owner_program [(FInt 1, [FDouble two; FString "a"]);
                    (FInt 2, [FDouble three; FString "b"])]].

(** The owner runs to [join()], then the worker runs to its end, then
    [join()] returns. *)
Definition header_example_schedule : list action :=
  replicate 13 (RunCaller 0) ++ replicate 17 RunWorker ++ [RunCaller 0].

(** The same program on a path that cannot be opened. *)
Definition unwritable_example : config :=
  mk_config ["t"; "x"; "y"] true "/nonexistent/log.csv" false None
    [owner_program [(FInt 1, [FDouble two; FString "a"]);
                    (FInt 2, [FDouble three; FString "b"])]].

(** One write, then the worker fails to open and returns, then the
    second write and the destructor. *)
Definition unwritable_schedule : list action :=
  replicate 5 (RunCaller 0) ++ replicate 2 RunWorker ++
  replicate 9 (RunCaller 0).

(** [CSVWriter<std::string> w(P); w.write("a");] and the end of the
    scope. *)
Definition lost_wakeup_example : config :=
  mk_config [] false "P" true None [[write (FString "a") []; destroy]].

(** The worker tests [stop_] and is about to call [wait]; the owner
    then runs [write] and the destructor up to [join()]; only now does
    the worker enter [wait]. *)
Definition lost_wakeup_schedule : list action :=
  replicate 3 RunWorker ++ replicate 5 (RunCaller 0) ++ [RunWorker] ++
  replicate 3 (RunCaller 0) ++ [RunWorker].

(** *** More invariants *)

(** The lines pushed by client thread [i], in push order. *)
Definition pushes_by (i : nat) (tr : list event) : list string :=
  omap (λ e, match e with
             | EvPush j line => if bool_decide (j = i) then Some line else None
             | _ => None
             end) tr.

(** With any number of client threads: what thread [i] has pushed and
    what it still has to push make up the lines of its program. *)
Definition producers_inv (c : config) (tr : list event) (s : csv_state)
    : Prop :=
  length (callers s) = length (programs c) ∧
  ∀ i cl, callers s !! i = Some cl →
    ∃ prog, programs c !! i = Some prog ∧
            pushes_by i tr ++ pending_lines cl = lines_of prog.

(** The worker is between locking and unlocking [q_mutex_]. *)
Definition holds_q (w : worker_pc) : bool :=
  match w with
  | WPop _ | WQUnlock _ _ => true
  | _ => false
  end.

(** [q_mutex_] is held only by a thread inside its locked region. *)
Definition holder_inv (s : csv_state) : Prop :=
  match q_mutex_ s with
  | None => True
  | Some ByWorker => holds_q (worker s) = true
  | Some (ByCaller i) =>
      ∃ cl, callers s !! i = Some cl ∧ in_critical (pc cl) = true
  end.

(** The worker owns [notify_lock]: from its construction to the end of
    [loop()], except while it is inside [wait]. *)
Definition holds_notify (w : worker_pc) : bool :=
  match w with
  | WTest | WWait | WEmpty _ | WQLock _ | WPop _ | WQUnlock _ _ | WOut _ _
  | WFlush | WClose => true
  | _ => false
  end.

Definition notify_inv (s : csv_state) : Prop :=
  notify_mutex_ s = if holds_notify (worker s) then Some ByWorker else None.

(** The worker is neither in [wait] nor about to enter it, and has not
    finished its final [dumpQ()]. *)
Definition can_finish (w : worker_pc) : bool :=
  match w with
  | WOpen | WHeader | WLock | WTest | WWoken | WEmpty _ | WQLock _ | WPop _
  | WQUnlock _ _ | WOut _ _ => true
  | _ => false
  end.

(** A bound on the steps the worker needs to reach the end of [loop()]
    once [stop_] is set and no client moves: six per queued line, plus
    what its own position costs. *)
Definition worker_offset (w : worker_pc) : nat :=
  match w with
  | WDone | WUndefined | WDiag | WWait | WBlocked => 0
  | WClose => 1
  | WFlush => 2
  | WEmpty Final => 3
  | WQLock Final => 2
  | WPop Final => 1
  | WQUnlock Final _ => 6
  | WOut Final _ => 5
  | WTest => 4
  | WEmpty InLoop => 5
  | WQLock InLoop => 4
  | WPop InLoop => 3
  | WQUnlock InLoop _ => 8
  | WOut InLoop _ => 7
  | WWoken => 6
  | WLock => 5
  | WHeader => 6
  | WOpen => 7
  end.

Definition steps_left (s : csv_state) : nat :=
  6 * length (q_ s) + worker_offset (worker s).

(** No client thread holds [q_mutex_]. *)
Definition clients_outside (s : csv_state) : Prop :=
  ∀ i, q_mutex_ s ≠ Some (ByCaller i).

(** Two client threads: the owner writes two rows and destroys the
    writer, a second thread writes one row. *)
Definition two_producers_example : config :=
  mk_config [] false "P" true None
    [[write (FString "a") []; write (FString "b") []; destroy];
     [write (FString "c") []]].

(** The owner's first [write], the other thread's [write], the owner's
    second [write] and its destructor up to [join()], the worker from
    [open] to the end of [loop()], and the return of [join()]. *)
Definition two_producers_schedule : list action :=
  replicate 5 (RunCaller 0) ++ replicate 5 (RunCaller 1) ++
  replicate 8 (RunCaller 0) ++ replicate 22 RunWorker ++ [RunCaller 0].

(** The owner runs up to [join()] before the other thread starts, and
    the worker runs [loop()] to its end. *)
Definition late_write_schedule : list action :=
  replicate 13 (RunCaller 0) ++ replicate 17 RunWorker.

End logger.

(** * Properties of [buffered_vector] *)

Section BufferedVector.
Context {T : Type}.
Implicit Types (v : buffered.buffered_vector T) (i n : nat) (x d : T).

Lemma vector_resize_length n d (l : list T) :
  length (buffered.vector_resize n d l) = n.
Proof.
  unfold buffered.vector_resize.
  rewrite length_app, length_take, length_replicate. lia.
Qed.

(** The constructors establish [size() <= capacity()] whenever they
    produce a vector with the assertion compiled in. *)
Lemma create_within_capacity size capacity d v :
  buffered.create_with_capacity false size capacity d = Some v →
  buffered.within_capacity v.
Proof.
  unfold buffered.create_with_capacity, buffered.within_capacity,
    buffered.size, buffered.capacity. simpl.
  case_bool_decide; [|done]. intros [= <-]. simpl.
  by rewrite length_replicate.
Qed.

(** [push_back] throws exactly on a full buffer. *)
Lemma push_back_throws x v what :
  buffered.push_back x v = Throws what ↔
  buffered.size v = buffered.capacity v ∧
  what = "Buffered vector reached the capacity limit!".
Proof.
  unfold buffered.push_back, buffered.size, buffered.capacity.
  repeat case_bool_decide; split; try done; try (intros [? ?]; done).
  all: try by intros [= <-].
  all: try by intros [_ ->].
Qed.

(** Below the capacity [push_back] stores at index [size()], adds one to
    [size()] and keeps the capacity and the other elements. *)
Lemma push_back_stores x v :
  buffered.size v < buffered.capacity v →
  ∃ v', buffered.push_back x v = Returns v' ∧
        buffered.data_ v' !! buffered.size v = Some x ∧
        buffered.size v' = S (buffered.size v) ∧
        buffered.capacity v' = buffered.capacity v ∧
        (∀ j, j ≠ buffered.size v →
              buffered.data_ v' !! j = buffered.data_ v !! j) ∧
        buffered.within_capacity v'.
Proof.
  unfold buffered.push_back, buffered.size, buffered.capacity,
    buffered.within_capacity. intros Hlt.
  rewrite bool_decide_eq_false_2 by lia.
  rewrite bool_decide_eq_true_2 by done.
  eexists. split; [done|]. simpl. rewrite length_insert.
  split; [by apply list_lookup_insert_eq|].
  split; [done|]. split; [done|].
  split; [intros j Hne; by apply list_lookup_insert_ne|].
  unfold buffered.capacity. simpl. rewrite length_insert. lia.
Qed.

Lemma emplace_back_push_back x v :
  buffered.emplace_back x v = buffered.push_back x v.
Proof. reflexivity. Qed.

(** The one-size [resize] empties the vector and sets the capacity. *)
Lemma resize_resets n d v :
  buffered.size (buffered.resize n d v) = 0 ∧
  buffered.capacity (buffered.resize n d v) = n ∧
  buffered.within_capacity (buffered.resize n d v).
Proof.
  unfold buffered.within_capacity, buffered.size, buffered.capacity. simpl.
  rewrite vector_resize_length. repeat split. lia.
Qed.

(** [clear] only resets the size. *)
Lemma clear_resets v :
  buffered.size (buffered.clear v) = 0 ∧
  buffered.data_ (buffered.clear v) = buffered.data_ v ∧
  buffered.within_capacity (buffered.clear v).
Proof.
  unfold buffered.within_capacity, buffered.size, buffered.capacity. simpl.
  repeat split. lia.
Qed.

(** The two-size [resize] takes both numbers as they come. *)
Lemma resize_with_capacity_sizes size capacity d v :
  buffered.size (buffered.resize_with_capacity size capacity d v) = size ∧
  buffered.capacity (buffered.resize_with_capacity size capacity d v)
  = capacity.
Proof.
  unfold buffered.size, buffered.capacity. simpl.
  by rewrite vector_resize_length.
Qed.

(** The check of [at] and the lack of one in [operator[]]: [at(i)]
    returns the element stored at index [i] when [i < size()], and there
    is such an element as long as the vector respects its capacity; it
    throws "Index out of bounds!" when [i >= size()], also for an index
    that is still below [capacity()]; [operator[]] never throws and
    hands out whatever the buffer holds at [i], whatever [size()] is. *)
Lemma at_checks_size v i :
  (∀ x, buffered.data_ v !! i = Some x → i < buffered.size v →
        buffered.at_ v i = Returns x) ∧
  (buffered.within_capacity v → i < buffered.size v →
   is_Some (buffered.data_ v !! i)) ∧
  (buffered.size v ≤ i →
   buffered.at_ v i = Throws "Index out of bounds!") ∧
  (∀ what, buffered.subscript v i ≠ Throws what) ∧
  (∀ x, buffered.data_ v !! i = Some x → buffered.subscript v i = Returns x).
Proof.
  unfold buffered.within_capacity, buffered.size, buffered.capacity,
    buffered.at_, buffered.subscript, buffered.deref.
  split; [|split; [|split; [|split]]].
  - intros x Hx Hlt. rewrite bool_decide_eq_false_2 by lia. by rewrite Hx.
  - intros Hwf Hlt. apply lookup_lt_is_Some_2. lia.
  - intros Hge. by rewrite bool_decide_eq_true_2.
  - intros what. by destruct (buffered.data_ v !! i).
  - by intros x ->.
Qed.

End BufferedVector.

Lemma at_checks_size_witness :
  buffered.at_ (buffered.mk_vector 1 [10; 20]) 1
  = Throws "Index out of bounds!" ∧
  buffered.subscript (buffered.mk_vector 1 [10; 20]) 1 = Returns 20 ∧
  buffered.at_ (buffered.mk_vector 1 [10; 20]) 0 = Returns 10.
Proof.
  split; [|split].
  - apply (at_checks_size (buffered.mk_vector 1 [10; 20]) 1).
    unfold buffered.size. simpl. lia.
  - by apply (at_checks_size (buffered.mk_vector 1 [10; 20]) 1).
  - apply (at_checks_size (buffered.mk_vector 1 [10; 20]) 0).
    all: unfold buffered.size; simpl; first [reflexivity | lia].
Defined.

(** C9.  [at] compares the index with [size_] only.  From [size()] on it
    throws "Index out of bounds!", also below [capacity()]; below
    [size()] it returns the element stored at the index provided the
    vector respects its capacity; [operator[]] never throws.  After
    [buffered_vector<std::string> v; v.resize(3, 2);] the index 2 is
    below [size()], [at(2)] passes its check and reads outside the
    buffer: it neither returns a stored element nor throws. *)
Theorem at_reads_outside_buffer :
  (∀ (T : Type) (v : buffered.buffered_vector T) i,
     buffered.size v ≤ i →
     buffered.at_ v i = Throws "Index out of bounds!") ∧
  (∀ (T : Type) (v : buffered.buffered_vector T) i,
     buffered.within_capacity v → i < buffered.size v →
     ∃ x, buffered.data_ v !! i = Some x ∧ buffered.at_ v i = Returns x) ∧
  (∀ (T : Type) (v : buffered.buffered_vector T) i what,
     buffered.subscript v i ≠ Throws what) ∧
  2 < buffered.size (buffered.resize_with_capacity 3 2 "" buffered.create) ∧
  buffered.at_ (buffered.resize_with_capacity 3 2 "" buffered.create) 2
  = Undefined ∧
  (∀ x : string,
     buffered.at_ (buffered.resize_with_capacity 3 2 "" buffered.create) 2
     ≠ Returns x) ∧
  (∀ what,
     buffered.at_ (buffered.resize_with_capacity 3 2 "" buffered.create) 2
     ≠ Throws what).
Proof.
  split; [|split; [|split]].
  - intros T v i Hge. by apply (at_checks_size v i).
  - intros T v i Hwf Hlt.
    destruct (at_checks_size v i) as (Hat & Hsome & _).
    destruct (Hsome Hwf Hlt) as [x Hx]. exists x. split; [done|].
    by apply Hat.
  - intros T v i what. by apply (at_checks_size v i).
  - unfold buffered.size. simpl. split; [lia|]. by repeat split.
Qed.

(** C10.  [buffered_vector<std::string> v; v.resize(3, 2);] selects the
    overload with a size and a capacity and leaves [size() = 3] above
    [capacity() = 2]: from there [at(2)] passes its check and reads
    outside the buffer, and [push_back] does not throw but writes
    outside it. *)
Theorem resize_with_capacity_exceeds :
  buffered.within_capacity (@buffered.create string) ∧
  buffered.size (buffered.resize_with_capacity 3 2 "" buffered.create) = 3 ∧
  buffered.capacity (buffered.resize_with_capacity 3 2 "" buffered.create)
  = 2 ∧
  ¬ buffered.within_capacity
      (buffered.resize_with_capacity 3 2 "" buffered.create) ∧
  buffered.at_ (buffered.resize_with_capacity 3 2 "" buffered.create) 2
  = Undefined ∧
  buffered.push_back "x"
    (buffered.resize_with_capacity 3 2 "" buffered.create) = Undefined.
Proof.
  unfold buffered.within_capacity, buffered.size, buffered.capacity. simpl.
  repeat split; try done; try lia.
Qed.
(** * Properties of [CSVWriter] *)

Import logger.

(** ** Strings *)

Lemma append_cons ch (a b : string) : String ch a +:+ b = String ch (a +:+ b).
Proof. reflexivity. Qed.

Lemma append_assoc (a b d : string) : (a +:+ b) +:+ d = a +:+ (b +:+ d).
Proof.
  induction a as [|ch a IH]; [done|]. by rewrite !append_cons, IH.
Qed.

Lemma append_empty_r (a : string) : a +:+ "" = a.
Proof. induction a as [|ch a IH]; [done|]. by rewrite append_cons, IH. Qed.

Lemma flat_app l k : flat (l ++ k) = flat l +:+ flat k.
Proof.
  unfold flat. induction l as [|x l IH]; simpl; [done|].
  by rewrite IH, append_assoc.
Qed.

Lemma flat_snoc l x : flat (l ++ [x]) = flat l +:+ x.
Proof. rewrite flat_app. simpl. by rewrite append_empty_r. Qed.

Lemma concat_cons sep x y l :
  String.concat sep (x :: y :: l) = x +:+ sep +:+ String.concat sep (y :: l).
Proof. reflexivity. Qed.

(** [buildString] is the comma-join of the rendered fields. *)
Lemma buildString_comma_joined t ts : buildString t ts = comma_joined t ts.
Proof.
  unfold comma_joined. revert t.
  induction ts as [|t' ts IH]; intros t; [done|].
  cbn [buildString]. rewrite IH, !fmap_cons. symmetry. apply concat_cons.
Qed.

Lemma concat_snoc l x :
  String.concat "," (l ++ [x]) = flat ((λ s, s +:+ ",") <$> l) +:+ x.
Proof.
  induction l as [|y l IH]; [done|].
  destruct l as [|z l].
  - simpl. unfold flat. simpl. by rewrite append_empty_r, append_assoc.
  - rewrite <- !app_comm_cons, concat_cons, app_comm_cons, IH.
    rewrite !fmap_cons. unfold flat; simpl.
    by rewrite !append_assoc.
Qed.

(** The index loop of the header block appends every column it visits
    with a comma behind it. *)
Lemma header_loop (h : list string) n acc :
  n ≤ length h →
  foldl (λ acc i, acc +:+ default "" (h !! i) +:+ ",") acc (seq 0 n) =
  acc +:+ flat ((λ s, s +:+ ",") <$> take n h).
Proof.
  induction n as [|n IH]; intros Hn.
  - simpl. unfold flat; simpl. by rewrite append_empty_r.
  - rewrite seq_S, foldl_app. simpl. rewrite IH by lia.
    destruct (lookup_lt_is_Some_2 h n) as [x Hx]; [lia|].
    rewrite (take_S_r _ _ _ Hx), fmap_app, flat_app, Hx. simpl.
    by rewrite !append_assoc, append_empty_r.
Qed.

(** A header with at least one column is written as its names joined by
    commas, with a line feed at the end. *)
Lemma header_text_joined header :
  header ≠ [] →
  header_text header = Some (String.concat "," header +:+ newline).
Proof.
  intros Hne. unfold header_text.
  destruct (decide (length header = 0)) as [H0|H0].
  { destruct header; done. }
  rewrite bool_decide_eq_false_2 by done. f_equal.
  destruct (lookup_lt_is_Some_2 header (length header - 1)) as [x Hx]; [lia|].
  rewrite header_loop by lia. rewrite Hx. simpl.
  assert (header = take (length header - 1) header ++ [x]) as Hsplit.
  { rewrite <- (take_drop (length header - 1) header) at 1. f_equal.
    apply list_eq. intros i. rewrite lookup_drop.
    destruct i; simpl.
    - by rewrite Nat.add_0_r.
    - rewrite !lookup_ge_None_2; [done | simpl; lia | lia]. }
  rewrite Hsplit at 3. rewrite concat_snoc.
  change ("" +:+ ?a) with a. by rewrite append_assoc.
Qed.

(** ** Histories *)

Lemma pushes_app tr evs : pushes (tr ++ evs) = pushes tr ++ pushes evs.
Proof. apply omap_app. Qed.

Lemma rows_out_app tr evs : rows_out (tr ++ evs) = rows_out tr ++ rows_out evs.
Proof. apply omap_app. Qed.

Lemma sent_app tr evs : sent (tr ++ evs) = sent tr ++ sent evs.
Proof. apply omap_app. Qed.


Lemma handle_events_app tr evs :
  handle_events (tr ++ evs) = handle_events tr ++ handle_events evs.
Proof. apply omap_app. Qed.

Lemma stopped_app tr evs : stopped (tr ++ evs) = stopped tr || stopped evs.
Proof. apply existsb_app. Qed.

Lemma joined_app tr evs : joined (tr ++ evs) = joined tr || joined evs.
Proof. apply existsb_app. Qed.

Lemma before_stop_app tr evs :
  before_stop (tr ++ evs) =
  if stopped tr then before_stop tr else tr ++ before_stop evs.
Proof.
  induction tr as [|e tr IH]; simpl; [done|].
  destruct (is_stop e); simpl; [done|]. rewrite IH. by destruct (stopped tr).
Qed.

Lemma before_stop_prefix tr : before_stop tr `prefix_of` tr.
Proof.
  induction tr as [|e tr IH]; simpl; [done|].
  destruct (is_stop e); [apply prefix_nil | by apply prefix_cons].
Qed.

Lemma before_stop_id tr : stopped tr = false → before_stop tr = tr.
Proof.
  induction tr as [|e tr IH]; simpl; [done|].
  destruct (is_stop e); simpl; [done|]. intros H. by rewrite IH.
Qed.

Lemma pushes_prefix tr tr' : tr `prefix_of` tr' → pushes tr `prefix_of` pushes tr'.
Proof. intros [k ->]. rewrite pushes_app. by apply prefix_app_r. Qed.

Lemma pushes_before_stop_quiet tr evs :
  pushes evs = [] → pushes (before_stop (tr ++ evs)) = pushes (before_stop tr).
Proof.
  intros Hq. rewrite before_stop_app. destruct (stopped tr) eqn:Hs; [done|].
  rewrite (before_stop_id tr) by done. rewrite pushes_app.
  pose proof (pushes_prefix _ _ (before_stop_prefix evs)) as Hp.
  rewrite Hq in Hp. apply prefix_nil_inv in Hp. by rewrite Hp, app_nil_r.
Qed.

Lemma lines_of_owner_program rows :
  lines_of (owner_program rows) = (λ r, buildString r.1 r.2) <$> rows.
Proof.
  induction rows as [|r rows IH]; [done|].
  change (lines_of (owner_program (r :: rows)))
    with (buildString r.1 r.2 :: lines_of (owner_program rows)).
  by rewrite IH.
Qed.

Lemma owner_program_destroy rows rest :
  owner_program rows = destroy :: rest → rest = [].
Proof. destruct rows as [|r rows]; unfold owner_program; simpl; congruence. Qed.

Lemma owner_program_write rows t ts rest :
  owner_program rows = write t ts :: rest → ∃ rows', rest = owner_program rows'.
Proof.
  destruct rows as [|r rows]; unfold owner_program; simpl; [done|].
  intros [= _ _ <-]. by exists rows.
Qed.

(** ** Case analysis on a step *)

(** Split the enabled step [H] by scheduler choice. *)
Ltac step_inv H :=
  match type of H with
  | step _ ?a _ = Some _ =>
      destruct a; simpl in H;
      [ unfold worker_step in H; simpl in H
      | unfold caller_step in H; simpl in H
      | unfold worker_waiting in H; simpl in H
      | ]
  end.

(** Split the enabled step [H] into the source statements that can
    have produced it. *)
Ltac crush_step H :=
  repeat match type of H with
  | None = Some _ => discriminate H
  | Some _ = Some _ => injection H as <- <-
  | context [match ?x with _ => _ end] => destruct x eqn:?; simpl in H
  end.

(** Unfold the library primitives. *)
Ltac unfold_prims :=
  unfold stream_close, stream_put, stream_sync, notify_one, worker_waiting,
    set_caller, after_drain, written in *; simpl in *.

(** Read the history of an extended trace. *)
Ltac history :=
  rewrite ?pushes_app, ?rows_out_app, ?sent_app, ?handle_events_app,
    ?stopped_app, ?joined_app; simpl;
  rewrite ?app_nil_r, ?orb_false_r, ?orb_true_r.

(** ** What a step leaves alone *)

Lemma notify_one_eq s :
  notify_one s =
  with_worker (if worker_waiting s then WWoken else worker s) s.
Proof.
  unfold notify_one. destruct s as [out q qm nm st jn w cs f ce].
  by destruct (worker_waiting _).
Qed.

(** A step of the worker does not touch the client threads, [stop_] or
    the thread handle, and pushes nothing. *)
Lemma worker_step_frame c s s' evs :
  worker_step c s = Some (s', evs) →
  stop_ s' = stop_ s ∧ callers s' = callers s ∧ joinable s' = joinable s ∧
  pushes evs = [] ∧ stopped evs = false ∧ joined evs = false.
Proof.
  intros Hstep. destruct s as [[op pend] q qm nm st jn w cs f ce].
  unfold worker_step in Hstep; simpl in Hstep. crush_step Hstep.
  all: unfold_prims; repeat case_match; by repeat split.
Qed.

(** A client step does not touch the stream, the file or [std::cerr]; the
    only thing it can do to the worker is wake it. *)
Lemma caller_step_frame i s s' evs :
  caller_step i s = Some (s', evs) →
  out_ s' = out_ s ∧ file s' = file s ∧ cerr s' = cerr s ∧
  notify_mutex_ s' = notify_mutex_ s ∧
  sent evs = [] ∧ rows_out evs = [] ∧ handle_events evs = [] ∧
  (worker s' = worker s ∨ (worker s = WBlocked ∧ worker s' = WWoken)).
Proof.
  intros Hstep. destruct s as [out q qm nm st jn w cs f ce].
  unfold caller_step in Hstep; simpl in Hstep. crush_step Hstep.
  all: unfold_prims; try by (repeat split; auto).
  all: destruct w; simpl; repeat split; auto.
Qed.

Lemma caller_step_stop i s s' evs :
  caller_step i s = Some (s', evs) →
  stop_ s' = stop_ s || stopped evs ∧ rows_out evs = [] ∧
  (worker s' = worker s ∨ (worker s = WBlocked ∧ worker s' = WWoken)).
Proof.
  intros Hstep. destruct s as [out q qm nm st jn w cs f ce].
  unfold caller_step in Hstep; simpl in Hstep. crush_step Hstep.
  all: unfold_prims; rewrite ?orb_false_r, ?orb_true_r;
    try by (repeat split; auto).
  all: destruct w; simpl; repeat split; auto.
Qed.

Lemma caller_step_join i s s' evs :
  caller_step i s = Some (s', evs) →
  (joined evs = false ∧ joinable s' = joinable s ∧
   (worker s' = worker s ∨ (worker s = WBlocked ∧ worker s' = WWoken))) ∨
  (joined evs = true ∧ joinable s' = false ∧ worker s = WDone ∧
   worker s' = WDone).
Proof.
  intros Hstep. destruct s as [out q qm nm st jn w cs f ce].
  unfold caller_step in Hstep; simpl in Hstep. crush_step Hstep.
  all: unfold_prims; try by (left; repeat split; auto).
  all: try by (right; repeat split; auto).
  all: destruct w; simpl; left; repeat split; auto.
Qed.


(** ** Invariants *)

Lemma queue_inv_reachable c tr s : reachable c tr s → queue_inv c tr s.
Proof.
  induction 1 as [|tr s a s' evs Hr IH Hstep].
  - split; done.
  - destruct IH as [Hq Hw].
    destruct s as [out q qm nm st jn w cs f ce]; simpl in *.
    step_inv Hstep; crush_step Hstep; unfold queue_inv; unfold_prims; history.
    all: repeat case_match; simpl in *; simplify_eq.
    all: try (split; [try done|try done]).
    all: try (rewrite Hq; simpl; by rewrite ?app_nil_r, <-?app_assoc).
    all: try by destruct q.
Qed.

Lemma stream_inv_reachable c tr s : reachable c tr s → stream_inv c tr s.
Proof.
  induction 1 as [|tr s a s' evs Hr IH Hstep].
  - repeat split; done.
  - apply queue_inv_reachable in Hr as [_ Hq].
    destruct IH as (Hsent & Hrows & Hw).
    destruct a; simpl in Hstep.
    + destruct s as [[op pend] q qm nm st jn w cs f ce]; simpl in *.
      unfold worker_step in Hstep; simpl in Hstep. crush_step Hstep.
      all: simpl in *; destruct_and?; simplify_eq/=.
      all: unfold stream_inv, header_block in *; unfold_prims; history.
      all: repeat case_match; simplify_eq/=.
      all: rewrite ?flat_snoc, ?fmap_app; simpl.
      all: try (rewrite Hrows in * by done; simpl in * ).
      all: repeat split; try done.
      all: try (by rewrite Hsent, ?app_assoc).
      all: try congruence.
      all: repeat match goal with H : handle_events _ = _ |- _ => rewrite H end; try done.
      all: try (match goal with H : _ = flat (sent _) |- _ => rewrite <- H end;
                unfold as_line; by rewrite ?append_assoc, ?append_empty_r).
    + apply caller_step_frame in Hstep as (Ho & Hf & Hc & _ & Hs & Hro & Hh & Hwk).
      unfold stream_inv, written in *. history.
      rewrite Ho, Hf, Hc, Hs, Hro, Hh, !app_nil_r.
      destruct Hwk as [-> | [Hb ->]]; [done|]. by rewrite Hb in *.
    + destruct s as [[op pend] q qm nm st jn w cs f ce]; simpl in *.
      unfold_prims. destruct w; simplify_eq/=.
      unfold stream_inv; simpl. by history.
    + destruct s as [[op pend] q qm nm st jn w cs f ce]; simpl in *.
      unfold_prims. destruct op; simplify_eq/=.
      unfold stream_inv, written in *; simpl in *. history.
      destruct w; simpl in *; destruct_and?; simplify_eq/=.
      all: repeat split; try done.
      all: match goal with H : _ = flat (sent _) |- _ => rewrite <- H end;
                by rewrite ?append_assoc, ?append_empty_r.
Qed.


Lemma stop_inv_reachable c tr s : reachable c tr s → stop_inv c tr s.
Proof.
  induction 1 as [|tr s a s' evs Hr IH Hstep].
  - repeat split; done.
  - pose proof (queue_inv_reachable _ _ _ Hr) as [Hq _].
    pose proof (stream_inv_reachable _ _ _ Hr) as (_ & _ & Hst).
    destruct IH as (Hstop & Hleave & Hdrain).
    destruct a; simpl in Hstep.
    + pose proof (worker_step_frame _ _ _ _ Hstep) as (Es & _ & _ & Ep & Et & _).
      unfold stop_inv. rewrite Es, stopped_app, Et, orb_false_r.
      rewrite pushes_before_stop_quiet by done.
      split; [done|].
      destruct s as [[op pend] q qm nm st jn w cs f ce]; simpl in *.
      unfold worker_step in Hstep; simpl in Hstep. crush_step Hstep.
      all: simpl in *; unfold_prims; history.
      all: repeat case_match; simplify_eq/=.
      all: split; try done; try (intros; by apply prefix_app_r, Hdrain).
      all: try (intros; by apply Hdrain).
      all: try (intros _ Hc; destruct Hst as [Hc' _]; congruence).
      * intros _ _. rewrite app_nil_r in Hq. rewrite <- Hq.
        apply pushes_prefix, before_stop_prefix.
    + apply caller_step_stop in Hstep as (Es & Ero & Hwk).
      unfold stop_inv. rewrite Es, stopped_app, rows_out_app, Ero, app_nil_r, Hstop.
      assert (leaving (worker s') = leaving (worker s) ∧
              drained (worker s') = drained (worker s)) as [-> ->].
      { destruct Hwk as [-> | [-> ->]]; done. }
      split; [done|]. split.
      * intros Hl Hc. by rewrite <- Hstop, Hleave.
      * intros Hd Hc. rewrite before_stop_app.
        assert (stopped tr = true) as ->; [|by apply Hdrain].
        rewrite <- Hstop. apply Hleave; [|done]. by destruct (worker s).
    + destruct s as [[op pend] q qm nm st jn w cs f ce]; simpl in *.
      unfold_prims. destruct w; simplify_eq/=.
      unfold stop_inv; simpl. by history.
    + destruct s as [[op pend] q qm nm st jn w cs f ce]; simpl in *.
      unfold_prims. destruct op; simplify_eq/=.
      unfold stop_inv in *; simpl in *. by history.
Qed.

Lemma mutex_inv_reachable c tr s : reachable c tr s → mutex_inv s.
Proof.
  induction 1 as [|tr s a s' evs Hr IH Hstep].
  - split; [done|]. intros i cl. simpl. rewrite list_lookup_fmap.
    destruct (programs c !! i); simpl; [|done]. by intros [= <-].
  - destruct IH as [Hw Hc].
    destruct s as [[op pend] q qm nm st jn w cs f ce]; simpl in *.
    destruct a; simpl in Hstep.
    + unfold worker_step in Hstep; simpl in Hstep. crush_step Hstep.
      all: unfold mutex_inv; unfold_prims; repeat case_match; simplify_eq/=.
      all: split; try done.
      all: intros i cl Hi Hcr; specialize (Hc i cl Hi Hcr); congruence.
    + unfold caller_step in Hstep; simpl in Hstep.
      destruct (cs !! i) as [[p td]|] eqn:Hi; simpl in Hstep; [|done].
      pose proof (lookup_lt_Some _ _ _ Hi) as Hlt.
      pose proof (Hc i _ Hi) as Hci; simpl in Hci.
      crush_step Hstep.
      all: unfold mutex_inv; unfold_prims.
      all: try match goal with
               | |- context [if match ?w with WBlocked => _ | _ => _ end
                             then _ else _] => destruct w; simpl in *
               end.
      all: split; [repeat case_match; simplify_eq/=; try done;
                   try (specialize (Hci eq_refl); congruence)|].
      all: intros j cl Hj Hcr; destruct (decide (i = j)) as [<-|Hne];
        [ rewrite list_lookup_insert_eq in Hj by done; simplify_eq/=;
          try done; try by apply Hci
        | rewrite list_lookup_insert_ne in Hj by done;
          repeat case_match; simplify_eq/=;
          try (by apply (Hc j cl)) ].
      all: try (specialize (Hc j cl Hj Hcr); specialize (Hci eq_refl); congruence).
      all: try (specialize (Hc j cl Hj Hcr); congruence).
    + unfold_prims. destruct w; simplify_eq/=. by split.
    + unfold_prims. destruct op; simplify_eq/=. by split.
Qed.

Lemma join_inv_reachable c tr s : reachable c tr s → join_inv tr s.
Proof.
  induction 1 as [|tr s a s' evs Hr IH Hstep].
  - split; done.
  - destruct IH as [Hj Hd]. unfold join_inv. rewrite joined_app.
    destruct a; simpl in Hstep.
    + pose proof (worker_step_frame _ _ _ _ Hstep) as (_ & _ & Ej & _ & _ & En).
      rewrite Ej, En, orb_false_r. split; [done|].
      intros Hjd. specialize (Hd Hjd).
      unfold worker_step in Hstep. by rewrite Hd in Hstep.
    + apply caller_step_join in Hstep
        as [(En & Ej & Hwk) | (En & Ej & Hw & Hw')]; rewrite En, Ej.
      * rewrite orb_false_r. split; [done|]. intros Hjd. specialize (Hd Hjd).
        destruct Hwk as [-> | [Hb _]]; [done | congruence].
      * rewrite orb_true_r. by split.
    + unfold worker_waiting in Hstep.
      destruct (worker s) eqn:Hw; simplify_eq/=. rewrite orb_false_r.
      split; [done|]. intros Hjd. specialize (Hd Hjd). congruence.
    + destruct (is_open (out_ s)) eqn:Ho; simplify_eq/=. rewrite orb_false_r.
      unfold stream_sync. rewrite Ho. simpl. by split.
Qed.

Lemma single_inv_reachable c prog tr s :
  programs c = [prog] → reachable c tr s → single_inv prog tr s.
Proof.
  intros Hp. induction 1 as [|tr s a s' evs Hr IH Hstep].
  - exists (mk_caller CIdle prog). simpl. by rewrite Hp.
  - destruct IH as (cl & Hcs & Hl). unfold single_inv. rewrite pushes_app.
    destruct a; simpl in Hstep.
    + pose proof (worker_step_frame _ _ _ _ Hstep) as (_ & -> & _ & -> & _).
      exists cl. by rewrite app_nil_r.
    + destruct s as [out q qm nm st jn w cs f ce]; simpl in *. subst cs.
      unfold caller_step in Hstep; simpl in Hstep.
      destruct i; simpl in Hstep; [|done]. destruct cl as [p td].
      unfold pending_lines in Hl. simpl in *.
      crush_step Hstep; unfold_prims.
      all: repeat case_match; simplify_eq/=.
      all: eexists; (split; [reflexivity|]); unfold pending_lines; simpl.
      all: by rewrite ?app_nil_r, <- ?app_assoc.
    + unfold worker_waiting in Hstep.
      destruct (worker s) eqn:Hw; simplify_eq/=. exists cl.
      by rewrite app_nil_r.
    + destruct (is_open (out_ s)) eqn:Ho; simplify_eq/=.
      unfold stream_sync. rewrite Ho. simpl. exists cl. by rewrite app_nil_r.
Qed.

Lemma owner_inv_reachable c rows tr s :
  programs c = [owner_program rows] → reachable c tr s → owner_inv tr s.
Proof.
  intros Hp. induction 1 as [|tr s a s' evs Hr IH Hstep].
  - exists (mk_caller CIdle (owner_program rows)). simpl. rewrite Hp.
    repeat split; eauto.
  - pose proof (join_inv_reachable _ _ _ Hr) as [Hjn _].
    destruct IH as (cl & Hcs & Ho). unfold owner_inv.
    destruct a; simpl in Hstep.
    + pose proof (worker_step_frame _ _ _ _ Hstep) as (_ & -> & _ & Ep & Es & Ej).
      exists cl. split; [done|].
      rewrite stopped_app, joined_app, Es, Ej, !orb_false_r.
      rewrite pushes_before_stop_quiet, pushes_app, Ep, app_nil_r by done.
      done.
    + destruct s as [out q qm nm st jn w cs f ce]; simpl in *. subst cs.
      unfold caller_step in Hstep; simpl in Hstep.
      destruct i; simpl in Hstep; [|done]. destruct cl as [p td].
      simpl in *.
      crush_step Hstep; unfold_prims.
      all: eexists; (split; [repeat case_match; reflexivity|]); simpl.
      all: rewrite stopped_app, joined_app, before_stop_app, ?pushes_app; simpl.
      all: destruct (stopped tr) eqn:Hs; simpl;
        rewrite ?orb_false_r, ?orb_true_r, ?app_nil_r; destruct_and?;
        simplify_eq/=; try done.
      all: repeat match goal with
                  | H : ∃ _, _ = owner_program _ |- _ =>
                      destruct H as [? H]; symmetry in H
                  | H : owner_program _ = write _ _ :: _ |- _ =>
                      apply owner_program_write in H as [? ->]
                  | H : owner_program _ = destroy :: _ |- _ =>
                      apply owner_program_destroy in H as ->
                  end.
      all: try by eauto.
      all: by destruct (joined tr).
    + unfold worker_waiting in Hstep.
      destruct (worker s) eqn:Hw; simplify_eq/=. exists cl.
      by rewrite app_nil_r.
    + destruct (is_open (out_ s)) eqn:Hop; simplify_eq/=.
      unfold stream_sync. rewrite Hop. simpl. exists cl. by rewrite app_nil_r.
Qed.

(** ** Runs *)

Lemma run_cons c a sched s s1 evs1 s2 evs2 :
  step c a s = Some (s1, evs1) →
  run c sched s1 = Some (s2, evs2) →
  run c (a :: sched) s = Some (s2, evs1 ++ evs2).
Proof. intros H1 H2. simpl. by rewrite H1, H2. Qed.

(** A schedule that runs from a reachable state ends in one. *)
Lemma run_reachable c sched : ∀ tr s s' evs,
  reachable c tr s → run c sched s = Some (s', evs) →
  reachable c (tr ++ evs) s'.
Proof.
  induction sched as [|a sched IH]; intros tr s s' evs Hr Hrun; simpl in Hrun.
  - simplify_eq. by rewrite app_nil_r.
  - destruct (step c a s) as [[s1 evs1]|] eqn:Hs; [|done].
    destruct (run c sched s1) as [[s2 evs2]|] eqn:Hr2; [|done].
    simplify_eq. rewrite app_assoc. eapply IH; [|done].
    by eapply reachable_step.
Qed.

Lemma run_from_init c sched s tr :
  run c sched (init c) = Some (s, tr) → reachable c tr s.
Proof. intros H. by apply (run_reachable c sched [] (init c)), H; constructor. Qed.

(** [write] run without interruption from a state where [q_mutex_] is
    free: one line is pushed, then the worker is notified, and the lock
    is free again. *)
Lemma write_runs c i s t ts rest :
  callers s !! i = Some (mk_caller CIdle (write t ts :: rest)) →
  q_mutex_ s = None →
  ∃ s', run c (replicate 5 (RunCaller i)) s =
          Some (s', [EvPush i (buildString t ts);
                     EvNotify i (worker_waiting s)]) ∧
        q_ s' = q_ s ++ [buildString t ts] ∧
        callers s' !! i = Some (mk_caller CIdle rest) ∧
        q_mutex_ s' = None ∧
        out_ s' = out_ s ∧ file s' = file s ∧ cerr s' = cerr s ∧
        stop_ s' = stop_ s.
Proof.
  intros Hi Hm. pose proof (lookup_lt_Some _ _ _ Hi) as Hlt.
  destruct s as [out q qm nm st jn w cs f ce].
  cbn [callers q_mutex_ q_ out_ file cerr stop_ worker_waiting worker] in *.
  subst qm.
  assert (∀ (l : list caller) x, length l = length cs → <[i:=x]> l !! i = Some x)
    as Hlook.
  { intros l x Hl. apply list_lookup_insert_eq. by rewrite Hl. }
  change (replicate 5 (RunCaller i)) with
    [RunCaller i; RunCaller i; RunCaller i; RunCaller i; RunCaller i].
  change [EvPush i (buildString t ts); EvNotify i (worker_waiting _)]
    with ([] ++ [] ++ [EvPush i (buildString t ts)] ++
          [EvNotify i (match w with WBlocked => true | _ => false end)] ++
          [] ++ @nil event).
  eexists. split.
  - eapply run_cons.
    { unfold step, caller_step. cbn [callers]. rewrite Hi. reflexivity. }
    eapply run_cons.
    { unfold step, caller_step, set_caller. cbn.
      rewrite Hlook by done. reflexivity. }
    eapply run_cons.
    { unfold step, caller_step, set_caller. cbn.
      rewrite Hlook by (by rewrite !length_insert). reflexivity. }
    eapply run_cons.
    { unfold step, caller_step, set_caller. rewrite notify_one_eq. cbn.
      rewrite Hlook by (by rewrite !length_insert). reflexivity. }
    eapply run_cons; [|reflexivity].
    unfold step, caller_step, set_caller. cbn.
    rewrite Hlook by (by rewrite !length_insert). reflexivity.
  - cbn. repeat split; try done.
    apply Hlook. by rewrite !length_insert.
Qed.

(** A single owner thread that writes its rows and destroys the writer:
    once it is through, the file holds the header line and the rows, and
    nothing else. *)
Lemma owner_run_complete c rows tr s :
  programs c = [owner_program rows] → can_open c = true →
  reachable c tr s → callers s = [mk_caller CIdle []] →
  file s = Some (flat (header_block c) +:+
                 lines_text ((λ r, buildString r.1 r.2) <$> rows)) ∧
  is_open (out_ s) = false ∧ pending (out_ s) = "".
Proof.
  intros Hp Hopen Hr Hfin.
  destruct (owner_inv_reachable _ _ _ _ Hp Hr) as (cl & Hcl & Ho).
  destruct (single_inv_reachable _ _ _ _ Hp Hr) as (cl' & Hcl' & Hl).
  rewrite Hfin in Hcl, Hcl'. simplify_eq. simpl in *.
  destruct (stopped tr) eqn:Hs.
  2:{ destruct Ho as [_ [rows' Ho]]. by destruct rows'. }
  destruct Ho as (_ & Hb & Hj).
  destruct (join_inv_reachable _ _ _ Hr) as [_ Hd]. specialize (Hd Hj).
  destruct (stop_inv_reachable _ _ _ Hr) as (_ & _ & Hdr).
  rewrite Hd in Hdr. specialize (Hdr eq_refl Hopen).
  destruct (queue_inv_reachable _ _ _ Hr) as [Hq _].
  rewrite Hd in Hq. simpl in Hq.
  rewrite Hb in Hdr. apply prefix_length_eq in Hdr.
  2:{ rewrite Hq, length_app. lia. }
  destruct (stream_inv_reachable _ _ _ Hr) as (Hsent & _ & Hst).
  rewrite Hd, Hopen in Hst, Hsent. simpl in *.
  destruct Hst as (-> & -> & -> & _). repeat split.
  rewrite Hsent, flat_app. do 3 f_equal.
  unfold pending_lines in Hl. simpl in Hl. rewrite app_nil_r in Hl.
  by rewrite <- Hdr, Hl, lines_of_owner_program.
Qed.
(** ** The writer at work *)


(** C3.  When the file cannot be opened, the worker only prints the
    diagnostic on [std::cerr] and returns, within two of its own steps;
    the file is left as it was and nothing is ever sent to [out_]; the
    pushed lines stay in the queue; and a [write] call still runs through
    its five statements and leaves its line in the queue. *)
Theorem open_failure_is_silent c tr s :
  can_open c = false → reachable c tr s →
  (worker s = WOpen ∨ worker s = WDiag ∨ worker s = WDone) ∧
  file s = file_before c ∧ is_open (out_ s) = false ∧
  pending (out_ s) = "" ∧ sent tr = [] ∧ q_ s = pushes tr ∧
  (worker s = WDone → cerr s = open_diagnostic (path_ c)) ∧
  (∃ n s' evs, n ≤ 2 ∧ run c (replicate n RunWorker) s = Some (s', evs) ∧
               worker s' = WDone ∧ file s' = file s ∧
               cerr s' = open_diagnostic (path_ c)) ∧
  (∀ i t ts rest,
     callers s !! i = Some (mk_caller CIdle (write t ts :: rest)) →
     q_mutex_ s = None →
     ∃ s', run c (replicate 5 (RunCaller i)) s =
             Some (s', [EvPush i (buildString t ts); EvNotify i false]) ∧
           q_ s' = q_ s ++ [buildString t ts] ∧
           callers s' !! i = Some (mk_caller CIdle rest) ∧
           file s' = file s ∧ out_ s' = out_ s).
Proof.
  intros Hopen Hr.
  destruct (queue_inv_reachable _ _ _ Hr) as [Hq _].
  destruct (stream_inv_reachable _ _ _ Hr) as (Hsent & Hrows & Hst).
  assert (worker s = WOpen ∨ worker s = WDiag ∨ worker s = WDone) as Hw.
  { destruct (worker s); auto; destruct Hst as [Hst _]; congruence. }
  assert (rows_out tr = []) as Hro.
  { rewrite Hopen, andb_false_r in Hsent.
    destruct Hw as [Hw | [Hw | Hw]]; rewrite Hw in *; simpl in *;
      try (by apply Hrows).
    rewrite Hopen in Hst.
    destruct Hst as (_ & _ & _ & Hs & _). rewrite Hs in Hsent.
    by destruct (rows_out tr). }
  assert (in_hand (worker s) = []) as Hih.
  { by destruct Hw as [Hw | [Hw | Hw]]; rewrite Hw. }
  rewrite Hro, Hih in Hq. simpl in Hq.
  assert (worker_waiting s = false) as Hnw.
  { unfold worker_waiting. by destruct Hw as [Hw | [Hw | Hw]]; rewrite Hw. }
  split; [done|].
  assert (file s = file_before c ∧ is_open (out_ s) = false ∧
          pending (out_ s) = "" ∧
          (worker s = WDone → cerr s = open_diagnostic (path_ c)) ∧
          (worker s ≠ WDone → cerr s = "")) as (Hf & Hio & Hpe & Hce & Hce').
  { destruct Hw as [Hw | [Hw | Hw]]; rewrite Hw, ?Hopen in *;
      destruct_and?; by repeat split. }
  repeat split; try done.
  - by rewrite Hsent, Hopen, andb_false_r, Hro.
  - destruct s as [[op pend] q qm nm st jn w cs f ce].
    cbn [worker file cerr out_ is_open pending] in *.
    destruct Hw as [-> | [-> | ->]].
    + rewrite Hce' by done.
      exists 2. eexists _, _. split; [lia|]. cbn. unfold worker_step. cbn.
      rewrite Hopen. cbn. by repeat split.
    + rewrite Hce' by done.
      exists 1. eexists _, _. split; [lia|]. cbn. unfold worker_step. cbn.
      by repeat split.
    + exists 0. eexists _, _. split; [lia|]. cbn. repeat split; auto.
  - intros i t ts rest Hi Hm.
    destruct (write_runs c i s t ts rest Hi Hm)
      as (s' & Hrun & Hq' & Hc' & _ & Ho' & Hf' & _).
    rewrite Hnw in Hrun. by exists s'.
Qed.


(** C7.  The handle of [out_] is opened at most once, by the first
    statement of [loop()] and not by the constructor, and closed at most
    once, when the worker is done; it is never opened again.  Opening
    truncates: whatever the file held before, an open or closed stream
    has put into it only what this writer sent. *)
Theorem one_file_handle c tr s :
  reachable c tr s →
  (handle_events tr = [] ∨ handle_events tr = [EvOpen false] ∨
   handle_events tr = [EvOpen true] ∨
   handle_events tr = [EvOpen true; EvClose]) ∧
  (handle_events tr = [] ↔ worker s = WOpen) ∧
  (is_open (out_ s) = true ↔ handle_events tr = [EvOpen true]) ∧
  (handle_events tr = [EvOpen true; EvClose] → worker s = WDone) ∧
  (is_open (out_ s) = true → written s = flat (sent tr)) ∧
  (handle_events tr = [EvOpen true; EvClose] →
   file s = Some (flat (sent tr))) ∧
  is_open (out_ (init c)) = false.
Proof.
  intros Hr.
  destruct (stream_inv_reachable _ _ _ Hr) as (_ & _ & Hst).
  destruct (worker s) eqn:Hw; destruct (can_open c) eqn:Hopen;
    destruct_and?;
    repeat match goal with H : handle_events _ = _ |- _ => rewrite H end;
    repeat match goal with H : is_open _ = _ |- _ => rewrite H end.
  all: repeat split; try done; try congruence; auto.
Qed.

(** ** Concrete runs *)

(** The first row of the example as [write] renders it: a [double]
    column prints six decimals; had the column been declared [int], the
    argument 2.0 would have been converted to 2 before [write] is
    entered. *)
Lemma example_row_rendering :
  buildString (FInt 1) [FDouble two; FString "a"] = "1,2.000000,a" ∧
  buildString (FInt 1) [FInt 2; FString "a"] = "1,2,a".
Proof. split; reflexivity. Qed.

(** C1, as the code has it.  A writer with the header t, x, y on a path
    that can be opened, after [write(1, 2.0, "a")], [write(2, 3.0, "b")]
    and its destruction: whatever the schedule, the file holds exactly
    the three lines "t,x,y", "1,2.000000,a" and "2,3.000000,b", each
    ended by a line feed.  [std::to_string] prints a double with six
    digits after the point. *)
Theorem header_example_file P before tr s :
  reachable (header_example P before) tr s →
  callers s = [mk_caller CIdle []] →
  file s = Some (lines_text ["t,x,y"; "1,2.000000,a"; "2,3.000000,b"]) ∧
  is_open (out_ s) = false.
Proof.
  intros Hr Hfin.
  destruct (owner_run_complete (header_example P before)
              [(FInt 1, [FDouble two; FString "a"]);
               (FInt 2, [FDouble three; FString "b"])] tr s
              eq_refl eq_refl Hr Hfin) as (-> & -> & _).
  split; [|done]. by vm_compute.
Qed.

Lemma header_example_file_witness :
  ∃ s tr, run (header_example "P" None) header_example_schedule
            (init (header_example "P" None)) = Some (s, tr) ∧
          file s = Some (lines_text ["t,x,y"; "1,2.000000,a"; "2,3.000000,b"]).
Proof.
  destruct (run (header_example "P" None) header_example_schedule
              (init (header_example "P" None))) as [[s tr]|] eqn:Hrun;
    [|by vm_compute in Hrun].
  exists s, tr. split; [done|].
  apply (header_example_file "P" None tr s).
  - by eapply run_from_init.
  - vm_compute in Hrun. by simplify_eq.
Defined.

(** The file of that run does not hold "1,2,a" and "2,3,b". *)
Lemma header_example_counterexample :
  ¬ (∀ tr s, reachable (header_example "P" None) tr s →
             callers s = [mk_caller CIdle []] →
             file s = Some (lines_text ["t,x,y"; "1,2,a"; "2,3,b"])).
Proof.
  intros H.
  destruct (run (header_example "P" None) header_example_schedule
              (init (header_example "P" None))) as [[s tr]|] eqn:Hrun;
    [|by vm_compute in Hrun].
  pose proof (run_from_init _ _ _ _ Hrun) as Hr.
  vm_compute in Hrun. simplify_eq.
  specialize (H _ _ Hr eq_refl). by vm_compute in H.
Qed.



Lemma open_failure_is_silent_witness :
  ∃ s tr, run unwritable_example unwritable_schedule
            (init unwritable_example) = Some (s, tr) ∧
          file s = None ∧ q_ s = pushes tr.
Proof.
  destruct (run unwritable_example unwritable_schedule
              (init unwritable_example)) as [[s tr]|] eqn:Hrun;
    [|by vm_compute in Hrun].
  exists s, tr. split; [done|].
  destruct (open_failure_is_silent unwritable_example tr s eq_refl)
    as (_ & Hf & _ & _ & _ & Hq & _).
  - by eapply run_from_init.
  - by split.
Defined.


Lemma one_file_handle_witness :
  ∃ s tr, run (header_example "P" None) header_example_schedule
            (init (header_example "P" None)) = Some (s, tr) ∧
          (handle_events tr = [] ↔ worker s = WOpen).
Proof.
  destruct (run (header_example "P" None) header_example_schedule
              (init (header_example "P" None))) as [[s tr]|] eqn:Hrun;
    [|by vm_compute in Hrun].
  exists s, tr. split; [done|].
  apply (one_file_handle (header_example "P" None) tr s).
  by eapply run_from_init.
Defined.

(** C8.  A notification that arrives between the worker's test of
    [stop_] and its call of [wait] is lost.  In this run the worker ends
    up suspended although the queue holds a row and [stop_] is set; the
    owner is blocked in [join()], the row never reaches the file, and
    neither thread can take a step: only a spurious wake-up would get
    the worker out of [wait]. *)
Theorem lost_wakeup_blocks_worker :
  ∃ s tr, run lost_wakeup_example lost_wakeup_schedule
            (init lost_wakeup_example) = Some (s, tr) ∧
          reachable lost_wakeup_example tr s ∧
          worker s = WBlocked ∧ q_ s = ["a"] ∧ stop_ s = true ∧
          callers s = [mk_caller DJoin []] ∧
          written s = "" ∧
          step lost_wakeup_example RunWorker s = None ∧
          (∀ i, step lost_wakeup_example (RunCaller i) s = None).
Proof.
  destruct (run lost_wakeup_example lost_wakeup_schedule
              (init lost_wakeup_example)) as [[s tr]|] eqn:Hrun;
    [|by vm_compute in Hrun].
  pose proof (run_from_init _ _ _ _ Hrun) as Hr.
  exists s, tr. split; [done|]. split; [done|].
  vm_compute in Hrun. simplify_eq. repeat split.
  intros [|i]; reflexivity.
Qed.

(** ** The buffered vector: construction, filling and the unchecked accessors *)

Section BufferedVectorMore.
Context {T : Type}.
Implicit Types (v : buffered.buffered_vector T) (i n : nat) (x d : T)
  (xs : list T).

Lemma walk_range v fuel first last :
  first ≤ last → last ≤ length (buffered.data_ v) → fuel = last - first →
  buffered.walk v fuel first last
  = Returns (take (last - first) (drop first (buffered.data_ v))).
Proof.
  revert first. induction fuel as [|fuel IH]; intros first Hle Hlast Hfuel.
  - assert (first = last) as -> by lia. simpl.
    rewrite bool_decide_eq_true_2 by done. by rewrite Nat.sub_diag.
  - simpl. rewrite bool_decide_eq_false_2 by lia.
    unfold buffered.deref_at, buffered.deref.
    destruct (lookup_lt_is_Some_2 (buffered.data_ v) first) as [x Hx]; [lia|].
    rewrite Hx, (IH (S first)) by lia.
    replace (last - first) with (S (last - S first)) by lia.
    by rewrite (drop_S _ _ _ Hx).
Qed.

Lemma contents_within v :
  buffered.within_capacity v →
  buffered.contents v = Returns (take (buffered.size v) (buffered.data_ v)).
Proof.
  unfold buffered.within_capacity, buffered.size, buffered.capacity,
    buffered.contents, buffered.begin, buffered.end_. intros Hwf.
  rewrite walk_range by lia. by rewrite Nat.sub_0_r, drop_0.
Qed.

Lemma contents_beyond v :
  buffered.capacity v < buffered.size v → buffered.contents v = Undefined.
Proof.
  unfold buffered.size, buffered.capacity, buffered.contents,
    buffered.begin, buffered.end_. intros Hlt.
  assert (∀ fuel first, first ≤ length (buffered.data_ v) →
            length (buffered.data_ v) - first < fuel →
            first ≠ buffered.size_ v →
            first + fuel = buffered.size_ v → 
            buffered.walk v fuel first (buffered.size_ v) = Undefined) as H.
  { induction fuel as [|fuel IH]; intros first H1 H2 H3 H4; [lia|].
    simpl. rewrite bool_decide_eq_false_2 by done.
    unfold buffered.deref_at, buffered.deref.
    destruct (buffered.data_ v !! first) as [x|] eqn:Hx; [|done].
    apply lookup_lt_Some in Hx.
    rewrite IH; [done|lia|lia|lia|lia]. }
  apply H; lia.
Qed.

(** X3.  Below capacity, [push_back(x)] succeeds; afterwards [at] returns
    [x] at the old [size()], returns what it returned before at every
    smaller index, and still throws at every larger one. *)
Theorem push_back_then_at x v :
  buffered.size v < buffered.capacity v →
  ∃ v', buffered.push_back x v = Returns v' ∧
        buffered.at_ v' (buffered.size v) = Returns x ∧
        (∀ i, i < buffered.size v → buffered.at_ v' i = buffered.at_ v i) ∧
        (∀ i, buffered.size v < i →
              buffered.at_ v' i = Throws "Index out of bounds!").
Proof.
  intros Hlt.
  destruct (push_back_stores x v Hlt) as (v' & Hp & Hx & Hs & Hc & Ho & Hw).
  exists v'. split; [done|].
  unfold buffered.at_, buffered.deref, buffered.size in *.
  split; [|split].
  - rewrite bool_decide_eq_false_2 by lia. by rewrite Hx.
  - intros i Hi. rewrite !bool_decide_eq_false_2 by lia.
    by rewrite Ho by lia.
  - intros i Hi. by rewrite bool_decide_eq_true_2 by lia.
Qed.

Lemma push_all_app_contents xs : ∀ v,
  buffered.within_capacity v →
  length xs ≤ buffered.capacity v - buffered.size v →
  ∃ v', buffered.push_all xs v = Returns v' ∧
        buffered.size v' = buffered.size v + length xs ∧
        buffered.capacity v' = buffered.capacity v ∧
        buffered.within_capacity v' ∧
        take (buffered.size v') (buffered.data_ v')
        = take (buffered.size v) (buffered.data_ v) ++ xs ∧
        drop (buffered.size v') (buffered.data_ v')
        = drop (buffered.size v') (buffered.data_ v).
Proof.
  induction xs as [|x xs IH]; intros v Hwf Hlen.
  - exists v. simpl. rewrite Nat.add_0_r, app_nil_r. by repeat split.
  - simpl in Hlen.
    destruct (push_back_stores x v) as (v1 & Hp & Hx & Hs & Hc & Ho & Hw);
      [lia|].
    destruct (IH v1 Hw) as (v' & Hp' & Hs' & Hc' & Hw' & Ht & Hd); [lia|].
    exists v'. simpl. rewrite Hp. split; [done|].
    split; [lia|]. split; [congruence|]. split; [done|].
    assert (take (buffered.size v1) (buffered.data_ v1)
            = take (buffered.size v) (buffered.data_ v) ++ [x]) as Ht1.
    { rewrite Hs. rewrite (take_S_r _ _ _ Hx). f_equal.
      apply list_eq. intros j. rewrite !lookup_take.
      case_decide; [|done]. apply Ho. lia. }
    split.
    + rewrite Ht, Ht1, <- app_assoc. done.
    + rewrite Hd. apply list_eq. intros j. rewrite !lookup_drop.
      apply Ho. lia.
Qed.

Lemma push_all_fits xs v :
  buffered.within_capacity v →
  length xs ≤ buffered.capacity v - buffered.size v →
  ∃ v', buffered.push_all xs v = Returns v' ∧
        buffered.size v' = buffered.size v + length xs ∧
        buffered.capacity v' = buffered.capacity v ∧
        buffered.contents v'
        = Returns (take (buffered.size v) (buffered.data_ v) ++ xs).
Proof.
  intros Hwf Hlen.
  destruct (push_all_app_contents xs v Hwf Hlen)
    as (v' & Hp & Hs & Hc & Hw & Ht & _).
  exists v'. repeat split; try done. by rewrite contents_within, Ht.
Qed.

Lemma push_all_overflows xs : ∀ v,
  buffered.within_capacity v →
  buffered.capacity v - buffered.size v < length xs →
  buffered.push_all xs v
  = Throws "Buffered vector reached the capacity limit!".
Proof.
  induction xs as [|x xs IH]; intros v Hwf Hlen.
  - simpl in Hlen. lia.
  - simpl in *.
    destruct (decide (buffered.size v = buffered.capacity v)) as [Hfull|Hne].
    + unfold buffered.push_back, buffered.size, buffered.capacity in *.
      by rewrite bool_decide_eq_true_2.
    + unfold buffered.within_capacity in Hwf.
      destruct (push_back_stores x v) as (v1 & Hp & _ & Hs & Hc & _ & Hw);
        [lia|].
      rewrite Hp. apply IH; [done|]. lia.
Qed.

(** X4.  A run of [push_back] calls on a vector that respects its
    capacity: as long as the elements fit, every call succeeds, the
    capacity stays, and iterating from [begin()] to [end()] visits the
    old elements followed by the new ones in call order; if they do not
    fit, the run ends in the exception
    "Buffered vector reached the capacity limit!". *)
Theorem push_all_fills xs v :
  buffered.within_capacity v →
  (length xs ≤ buffered.capacity v - buffered.size v →
   ∃ v', buffered.push_all xs v = Returns v' ∧
         buffered.size v' = buffered.size v + length xs ∧
         buffered.capacity v' = buffered.capacity v ∧
         buffered.contents v'
         = Returns (take (buffered.size v) (buffered.data_ v) ++ xs)) ∧
  (buffered.capacity v - buffered.size v < length xs →
   buffered.push_all xs v
   = Throws "Buffered vector reached the capacity limit!").
Proof.
  intros Hwf. split; intros Hlen.
  - by apply push_all_fits.
  - by apply push_all_overflows.
Qed.

Lemma size_minus_one_pos v :
  0 < buffered.size v → (N.of_nat (buffered.size v) < 2 ^ 64)%N →
  N.to_nat (buffered.size_minus_one v) = buffered.size v - 1.
Proof.
  unfold buffered.size_minus_one, buffered.size. intros Hpos Hfit.
  replace (N.of_nat (buffered.size_ v) + 2 ^ 64 - 1)%N
    with (N.of_nat (buffered.size_ v - 1) + 1 * 2 ^ 64)%N by lia.
  rewrite N.Div0.mod_add, N.mod_small by lia. lia.
Qed.

Lemma size_minus_one_zero v :
  buffered.size v = 0 → buffered.size_minus_one v = (2 ^ 64 - 1)%N.
Proof.
  unfold buffered.size_minus_one, buffered.size. intros ->. done.
Qed.

(** X5.  [back()] is [data_.at(size_ - 1)]: the check is against the
    capacity, not the size.  On an empty vector the index wraps around to
    [2^64 - 1] and [std::vector::at] throws [std::out_of_range]; on a
    non-empty vector within capacity it returns the last element; when
    [size()] exceeds [capacity()] it throws; and after a successful
    [push_back(x)] it returns [x]. *)
Theorem back_checks_capacity v :
  (N.of_nat (buffered.size v) < 2 ^ 64)%N →
  (N.of_nat (buffered.capacity v) < 2 ^ 64)%N →
  (buffered.size v = 0 → buffered.back v = buffered.OutOfRange) ∧
  (∀ x, 0 < buffered.size v →
        buffered.data_ v !! (buffered.size v - 1) = Some x →
        buffered.back v = buffered.Got x) ∧
  (buffered.capacity v < buffered.size v →
   buffered.back v = buffered.OutOfRange) ∧
  (∀ x, buffered.size v < buffered.capacity v →
        (N.of_nat (buffered.size v) + 1 < 2 ^ 64)%N →
        ∃ v', buffered.push_back x v = Returns v' ∧
              buffered.back v' = buffered.Got x).
Proof.
  intros Hs Hc. unfold buffered.back, buffered.vector_at.
  split; [|split; [|split]].
  - intros H0. rewrite size_minus_one_zero by done.
    rewrite lookup_ge_None_2; [done|]. unfold buffered.capacity in Hc. lia.
  - intros x Hpos Hx. rewrite size_minus_one_pos by done. by rewrite Hx.
  - intros Hlt. rewrite size_minus_one_pos by (done || lia).
    rewrite lookup_ge_None_2; [done|]. unfold buffered.capacity in Hlt. lia.
  - intros x Hlt Hfit.
    destruct (push_back_stores x v Hlt) as (v' & Hp & Hx & Hs' & _).
    exists v'. split; [done|].
    rewrite size_minus_one_pos by (rewrite Hs'; lia).
    rewrite Hs'. simpl. rewrite Nat.sub_0_r. by rewrite Hx.
Qed.

(** X6.  [clear()] only resets [size_]: afterwards [at] throws at every
    index and the range from [begin()] to [end()] is empty, but
    [operator[]] and [front()] still hand out the old elements and the
    capacity is unchanged; pushing [xs] afterwards overwrites the first
    [length xs] slots and leaves the slots behind them as they were. *)
Theorem clear_hides_but_keeps v i :
  buffered.at_ (buffered.clear v) i = Throws "Index out of bounds!" ∧
  buffered.contents (buffered.clear v) = Returns [] ∧
  buffered.subscript (buffered.clear v) i = buffered.subscript v i ∧
  buffered.front (buffered.clear v) = buffered.front v ∧
  buffered.capacity (buffered.clear v) = buffered.capacity v ∧
  (∀ xs, length xs ≤ buffered.capacity v →
     ∃ v', buffered.push_all xs (buffered.clear v) = Returns v' ∧
           buffered.contents v' = Returns xs ∧
           buffered.capacity v' = buffered.capacity v ∧
           drop (length xs) (buffered.data_ v')
           = drop (length xs) (buffered.data_ v)).
Proof.
  split; [|split; [|split; [|split; [|split]]]]; try done.
  intros xs Hlen.
  destruct (clear_resets v) as (Hs & Hd & Hw).
  destruct (push_all_app_contents xs (buffered.clear v) Hw)
    as (v' & Hp & Hs' & Hc' & Hw' & Ht & Hdr).
  { rewrite Hs. unfold buffered.capacity in *. rewrite Hd. lia. }
  exists v'. split; [done|]. rewrite contents_within, Ht, Hs by done.
  rewrite Hs' , Hs, Hd in Hdr. simpl in *. by repeat split.
Qed.

(** X1.  [buffered_vector(size)] builds a full vector: [size()] and
    [capacity()] are both [size], every index below [size] holds the
    default value, iterating from [begin()] to [end()] visits [size]
    default values, and the first [push_back] throws. *)
Theorem create_sized_is_full size d :
  buffered.size (buffered.create_sized size d) = size ∧
  buffered.capacity (buffered.create_sized size d) = size ∧
  buffered.contents (buffered.create_sized size d)
  = Returns (replicate size d) ∧
  (∀ i, i < size → buffered.at_ (buffered.create_sized size d) i = Returns d) ∧
  (∀ x, buffered.push_back x (buffered.create_sized size d)
        = Throws "Buffered vector reached the capacity limit!").
Proof.
  assert (buffered.capacity (buffered.create_sized size d) = size) as Hc.
  { unfold buffered.capacity. simpl. apply length_replicate. }
  split; [done|]. split; [done|]. split; [|split].
  - rewrite contents_within.
    + simpl. rewrite take_ge; [done|]. by rewrite length_replicate.
    + unfold buffered.within_capacity. rewrite Hc. done.
  - intros i Hi. unfold buffered.at_, buffered.deref. simpl.
    rewrite bool_decide_eq_false_2 by lia.
    by rewrite lookup_replicate_2.
  - intros x. unfold buffered.push_back. simpl.
    rewrite bool_decide_eq_true_2; [done|]. by rewrite length_replicate.
Qed.

(** X2.  [buffered_vector(size, capacity[, default_value])]: the only
    check is the [assert], so construction fails exactly when assertions
    are compiled in and [capacity < size].  A vector that was built has
    the requested size and capacity; with [size <= capacity] it holds
    [size] default values from [begin()] to [end()] and takes
    [capacity - size] more elements behind them. *)
Theorem create_with_capacity_asserts ndebug size capacity d :
  (buffered.create_with_capacity ndebug size capacity d = None ↔
   ndebug = false ∧ capacity < size) ∧
  (∀ v, buffered.create_with_capacity ndebug size capacity d = Some v →
        buffered.size v = size ∧ buffered.capacity v = capacity ∧
        (ndebug = false → buffered.within_capacity v) ∧
        (size ≤ capacity →
         buffered.contents v = Returns (replicate size d) ∧
         ∀ xs, length xs ≤ capacity - size →
               ∃ v', buffered.push_all xs v = Returns v' ∧
                     buffered.contents v'
                     = Returns (replicate size d ++ xs))).
Proof.
  unfold buffered.create_with_capacity. split.
  - destruct ndebug; simpl.
    + split; [done|]. by intros [? _].
    + case_bool_decide; split; try done.
      * intros [_ ?]. lia.
      * intros _. split; [done|lia].
  - intros v Hv.
    assert (v = buffered.mk_vector size (replicate capacity d) ∧
            (ndebug = false → size ≤ capacity)) as [-> Hnd].
    { destruct ndebug; simpl in Hv; [by simplify_eq|].
      case_bool_decide; by simplify_eq. }
    assert (buffered.capacity
              (buffered.mk_vector size (replicate capacity d)) = capacity)
      as Hc.
    { unfold buffered.capacity. simpl. apply length_replicate. }
    split; [done|]. split; [done|]. split.
    { intros Hf. unfold buffered.within_capacity. rewrite Hc. by apply Hnd. }
    intros Hle.
    assert (buffered.within_capacity
              (buffered.mk_vector size (replicate capacity d))) as Hw.
    { unfold buffered.within_capacity. by rewrite Hc. }
    assert (take size (replicate capacity d) = replicate size d) as Ht.
    { rewrite take_replicate. f_equal. lia. }
    split.
    + rewrite contents_within by done. simpl. by rewrite Ht.
    + intros xs Hlen.
      destruct (push_all_fits xs _ Hw) as (v' & Hp & _ & _ & Hcont).
      { by rewrite Hc. }
      exists v'. split; [done|]. rewrite Hcont. simpl. by rewrite Ht.
Qed.

(** X7.  [resize(n, d)] leaves an empty vector of capacity [n]: up to
    [n] elements can be pushed and are then the contents, one more
    throws.  The buffer itself keeps the old elements below [n] and has
    [d] in the slots that are new, as [operator[]] shows. *)
Theorem resize_then_fill n d v xs :
  (length xs ≤ n →
   ∃ v', buffered.push_all xs (buffered.resize n d v) = Returns v' ∧
         buffered.contents v' = Returns xs ∧
         buffered.size v' = length xs ∧ buffered.capacity v' = n) ∧
  (n < length xs →
   buffered.push_all xs (buffered.resize n d v)
   = Throws "Buffered vector reached the capacity limit!") ∧
  (∀ i x, i < n → buffered.data_ v !! i = Some x →
          buffered.subscript (buffered.resize n d v) i = Returns x) ∧
  (∀ i, buffered.capacity v ≤ i → i < n →
        buffered.subscript (buffered.resize n d v) i = Returns d).
Proof.
  destruct (resize_resets n d v) as (Hs & Hc & Hw).
  pose proof (push_all_fits xs _ Hw) as Hfill.
  pose proof (push_all_overflows xs _ Hw) as Hthrow.
  rewrite Hs, Hc, Nat.sub_0_r in Hfill, Hthrow.
  split; [|split; [done|split]].
  - intros Hlen. destruct (Hfill Hlen) as (v' & Hp & Hs' & Hc' & Hcont).
    exists v'. rewrite Hcont. simpl. by repeat split.
  - intros i x Hi Hx. unfold buffered.subscript, buffered.deref. simpl.
    unfold buffered.vector_resize.
    rewrite lookup_app_l.
    2:{ rewrite length_take. apply lookup_lt_Some in Hx. lia. }
    rewrite lookup_take_lt by done. by rewrite Hx.
  - intros i Hge Hi. unfold buffered.subscript, buffered.deref,
      buffered.capacity in *. simpl. unfold buffered.vector_resize.
    rewrite lookup_app_r by (rewrite length_take; lia).
    rewrite length_take. by rewrite lookup_replicate_2 by lia.
Qed.

(** X8.  [resize(size, capacity, d)] yields a vector that respects its
    capacity exactly when [size <= capacity].  Below [size] and
    [capacity], [at] returns the element the buffer held at that index
    before, or [d] where the buffer is new; at [size] and above [at]
    throws. *)
Theorem resize_with_capacity_keeps size capacity d v :
  (buffered.within_capacity
     (buffered.resize_with_capacity size capacity d v) ↔ size ≤ capacity) ∧
  (∀ i x, i < size → i < capacity → buffered.data_ v !! i = Some x →
     buffered.at_ (buffered.resize_with_capacity size capacity d v) i
     = Returns x) ∧
  (∀ i, i < size → i < capacity → buffered.capacity v ≤ i →
     buffered.at_ (buffered.resize_with_capacity size capacity d v) i
     = Returns d) ∧
  (∀ i, size ≤ i →
     buffered.at_ (buffered.resize_with_capacity size capacity d v) i
     = Throws "Index out of bounds!").
Proof.
  destruct (resize_with_capacity_sizes size capacity d v) as [Hs Hc].
  split; [|split; [|split]].
  - unfold buffered.within_capacity. by rewrite Hs, Hc.
  - intros i x Hi Hic Hx. unfold buffered.at_, buffered.deref. simpl.
    rewrite bool_decide_eq_false_2 by lia. unfold buffered.vector_resize.
    rewrite lookup_app_l.
    2:{ rewrite length_take. apply lookup_lt_Some in Hx. lia. }
    rewrite lookup_take_lt by done. by rewrite Hx.
  - intros i Hi Hic Hge. unfold buffered.at_, buffered.deref,
      buffered.capacity in *. simpl.
    rewrite bool_decide_eq_false_2 by lia. unfold buffered.vector_resize.
    rewrite lookup_app_r by (rewrite length_take; lia).
    rewrite length_take. by rewrite lookup_replicate_2 by lia.
  - intros i Hge. unfold buffered.at_. simpl.
    by rewrite bool_decide_eq_true_2.
Qed.

End BufferedVectorMore.

Lemma create_sized_is_full_witness :
  buffered.at_ (buffered.create_sized 3 7) 2 = Returns 7.
Proof.
  destruct (create_sized_is_full 3 7) as (_ & _ & _ & Hat & _).
  apply Hat. lia.
Defined.

Lemma create_with_capacity_asserts_witness :
  ∃ v', buffered.push_all [8; 9] (buffered.mk_vector 1 [7; 7; 7])
        = Returns v' ∧
        buffered.contents v' = Returns [7; 8; 9].
Proof.
  destruct (create_with_capacity_asserts false 1 3 7) as [_ Hsome].
  destruct (Hsome (buffered.mk_vector 1 [7; 7; 7])) as (_ & _ & _ & Hfill).
  - reflexivity.
  - destruct Hfill as [_ Hpush]; [lia|].
    apply (Hpush [8; 9]). simpl. lia.
Defined.

Lemma push_back_then_at_witness :
  ∃ v', buffered.push_back 30 (buffered.mk_vector 1 [10; 20]) = Returns v' ∧
        buffered.at_ v' 1 = Returns 30.
Proof.
  destruct (push_back_then_at 30 (buffered.mk_vector 1 [10; 20]))
    as (v' & Hp & Hat & _).
  - unfold buffered.size, buffered.capacity. simpl. lia.
  - exists v'. by split.
Defined.

Lemma push_all_fills_witness :
  buffered.push_all [1; 2; 3] (buffered.mk_vector 1 [10; 20; 30])
  = Throws "Buffered vector reached the capacity limit!".
Proof.
  destruct (push_all_fills [1; 2; 3] (buffered.mk_vector 1 [10; 20; 30]))
    as [_ Hfull].
  - unfold buffered.within_capacity, buffered.size, buffered.capacity.
    simpl. lia.
  - apply Hfull. unfold buffered.size, buffered.capacity. simpl. lia.
Defined.

Lemma back_checks_capacity_witness :
  buffered.back (buffered.mk_vector 0 [10; 20]) = buffered.OutOfRange.
Proof.
  destruct (back_checks_capacity (buffered.mk_vector 0 [10; 20]))
    as (Hzero & _).
  - unfold buffered.size. simpl. lia.
  - unfold buffered.capacity. simpl. lia.
  - by apply Hzero.
Defined.

Lemma clear_hides_but_keeps_witness :
  ∃ v', buffered.push_all [8]
          (buffered.clear (buffered.mk_vector 2 [1; 2; 3])) = Returns v' ∧
        buffered.contents v' = Returns [8] ∧
        buffered.data_ v' = [8; 2; 3].
Proof.
  destruct (clear_hides_but_keeps (buffered.mk_vector 2 [1; 2; 3]) 0)
    as (_ & _ & _ & _ & _ & Hfill).
  destruct (Hfill [8]) as (v' & Hp & Hc & _).
  - unfold buffered.capacity. simpl. lia.
  - exists v'. split; [done|]. split; [done|].
    vm_compute in Hp. by simplify_eq.
Defined.

Lemma resize_then_fill_witness :
  buffered.subscript (buffered.resize 3 0 (buffered.mk_vector 2 [5; 6])) 1
  = Returns 6.
Proof.
  destruct (resize_then_fill 3 0 (buffered.mk_vector 2 [5; 6]) [])
    as (_ & _ & Hold & _).
  apply Hold; [lia | reflexivity].
Defined.

Lemma resize_with_capacity_keeps_witness :
  buffered.at_
    (buffered.resize_with_capacity 2 4 0 (buffered.mk_vector 1 [5; 6])) 1
  = Returns 6.
Proof.
  destruct (resize_with_capacity_keeps 2 4 0 (buffered.mk_vector 1 [5; 6]))
    as (_ & Hold & _).
  apply Hold; [lia | lia | reflexivity].
Defined.

(** ** The synchronized queue *)

Section SynchronizedQueue.
Context {T : Type}.
Implicit Types (q : synchronized.queue T) (t : T) (ts : list T) (n : nat).

Lemma push_all_contents ts q :
  synchronized.q_ (synchronized.push_all ts q) = synchronized.q_ q ++ ts.
Proof.
  unfold synchronized.push_all. revert q.
  induction ts as [|t ts IH]; intros q; simpl; [by rewrite app_nil_r|].
  rewrite IH. simpl. by rewrite <- app_assoc.
Qed.

Lemma pop_many_take n : ∀ q,
  synchronized.pop_many n q =
  if bool_decide (n ≤ synchronized.size q)
  then Returns (take n (synchronized.q_ q),
                synchronized.mk_queue (drop n (synchronized.q_ q)))
  else Undefined.
Proof.
  induction n as [|n IH]; intros [l]; unfold synchronized.size.
  - cbn. rewrite bool_decide_eq_true_2 by lia. by rewrite drop_0.
  - destruct l as [|t l];
      cbn [synchronized.pop_many synchronized.pop synchronized.q_].
    + by rewrite bool_decide_eq_false_2 by (simpl; lia).
    + rewrite IH. unfold synchronized.size.
      cbn [synchronized.q_ length take drop].
      case_bool_decide; [rewrite bool_decide_eq_true_2 by lia
                        |rewrite bool_decide_eq_false_2 by lia]; done.
Qed.

(** X9.  The queue is first in, first out: after pushing [ts] onto a
    queue, [n] pops return the first [n] of the old elements followed by
    [ts], in that order, and leave the rest; popping more than the queue
    holds runs into [std::queue::pop] on an empty queue, which is
    undefined.  Starting from an empty queue, pushing [ts] and popping
    [length ts] times returns [ts] and empties the queue. *)
Theorem queue_is_fifo ts q n :
  (n ≤ synchronized.size q + length ts →
   synchronized.pop_many n (synchronized.push_all ts q)
   = Returns (take n (synchronized.q_ q ++ ts),
              synchronized.mk_queue (drop n (synchronized.q_ q ++ ts)))) ∧
  (synchronized.size q + length ts < n →
   synchronized.pop_many n (synchronized.push_all ts q) = Undefined) ∧
  synchronized.pop_many (length ts)
    (synchronized.push_all ts synchronized.create)
  = Returns (ts, synchronized.create).
Proof.
  rewrite !pop_many_take. unfold synchronized.size.
  rewrite !push_all_contents, !length_app. simpl.
  split; [|split].
  - intros Hn. by rewrite bool_decide_eq_true_2.
  - intros Hn. by rewrite bool_decide_eq_false_2 by lia.
  - rewrite bool_decide_eq_true_2 by done.
    by rewrite take_ge, drop_ge.
Qed.

(** X10.  [empty()], [hasElements()] and [size()] agree with each other;
    on an empty queue [pop()] and [top()] are undefined (they call
    [front()] of an empty [std::queue]); on a non-empty queue [pop()]
    returns the element [top()] shows and takes exactly it off. *)
Theorem pop_and_top q :
  (synchronized.empty q = true ↔ synchronized.size q = 0) ∧
  synchronized.hasElements q = negb (synchronized.empty q) ∧
  (synchronized.empty q = true →
   synchronized.pop q = Undefined ∧ synchronized.top q = Undefined) ∧
  (synchronized.hasElements q = true →
   ∃ t q', synchronized.pop q = Returns (t, q') ∧
           synchronized.top q = Returns t ∧
           synchronized.q_ q = t :: synchronized.q_ q' ∧
           synchronized.size q = S (synchronized.size q')).
Proof.
  destruct q as [[|t l]];
    unfold synchronized.hasElements, synchronized.empty, synchronized.size,
      synchronized.pop, synchronized.top; simpl.
  - repeat split; done.
  - split; [done|]. split; [done|]. split; [done|].
    intros _. by exists t, (synchronized.mk_queue l).
Qed.

(** X11.  [emplace] and [push] have the same effect: the queue grows by
    one and is non-empty.  An element pushed onto an empty queue is the
    next one popped; pushed onto a non-empty queue it does not change
    what [top()] and [pop()] return, and it is still queued after the
    pop. *)
Theorem push_behind_pop t q :
  synchronized.emplace t q = synchronized.push t q ∧
  synchronized.size (synchronized.push t q) = S (synchronized.size q) ∧
  synchronized.hasElements (synchronized.push t q) = true ∧
  (synchronized.empty q = true →
   synchronized.pop (synchronized.push t q) = Returns (t, q)) ∧
  (∀ t' q', synchronized.pop q = Returns (t', q') →
     synchronized.pop (synchronized.push t q)
     = Returns (t', synchronized.push t q') ∧
     synchronized.top (synchronized.push t q) = Returns t').
Proof.
  destruct q as [[|t0 l]];
    unfold synchronized.hasElements, synchronized.empty, synchronized.size,
      synchronized.pop, synchronized.top, synchronized.push,
      synchronized.emplace; simpl.
  - repeat split; try done.
  - rewrite length_app. simpl.
    split; [done|]. split; [lia|]. split; [done|]. split; [done|].
    by intros t' q' [= <- <-].
Qed.

End SynchronizedQueue.

Lemma queue_is_fifo_witness :
  synchronized.pop_many 2
    (synchronized.push_all [2; 3] (synchronized.mk_queue [1]))
  = Returns ([1; 2], synchronized.mk_queue [3]).
Proof.
  destruct (queue_is_fifo [2; 3] (synchronized.mk_queue [1]) 2)
    as (Hpop & _).
  apply Hpop. unfold synchronized.size. simpl. lia.
Defined.

Lemma pop_and_top_witness :
  synchronized.pop (synchronized.create (T := nat)) = Undefined.
Proof.
  destruct (pop_and_top (synchronized.create (T := nat)))
    as (_ & _ & Hempty & _).
  by apply Hempty.
Defined.

Lemma push_behind_pop_witness :
  synchronized.pop (synchronized.push 2 (synchronized.mk_queue [1]))
  = Returns (1, synchronized.mk_queue [2]).
Proof.
  destruct (push_behind_pop 2 (synchronized.mk_queue [1]))
    as (_ & _ & _ & _ & Hpop).
  by apply (Hpop 1 (synchronized.mk_queue [])).
Defined.

(** ** The CSV writer: rendering, producers, locking and shutdown *)

Lemma round_half_even_exact n den :
  (0 < den)%N → round_half_even (n * den) den = n.
Proof.
  intros Hden. unfold round_half_even.
  rewrite N.Div0.mod_mul, N.div_mul by lia.
  replace (den <? 2 * 0)%N with false by (symmetry; apply N.ltb_ge; lia).
  replace (2 * 0 =? den)%N with false by (symmetry; apply N.eqb_neq; lia).
  done.
Qed.

Lemma whole_micro_units_text neg u n :
  u = (n * 10 ^ 6)%N →
  sign_text neg +:+ pretty (u / 10 ^ 6)%N +:+ "." +:+
  six_digits (u mod 10 ^ 6)%N
  = sign_text neg +:+ pretty n +:+ ".000000".
Proof.
  intros ->. rewrite N.Div0.mod_mul, N.div_mul by done.
  by do 2 f_equal.
Qed.

(** X12.  [toString] of a [double] with an integral value [n] is the
    decimal text of [n], a point and six zeros, with a minus sign in
    front for the negative values (also for [-0.0]); this holds however
    the value is split into mantissa and exponent. *)
Theorem whole_double_text neg n :
  (∀ p, toString (FDouble (DFinite neg (n * 2 ^ Npos p) (Zneg p)))
        = sign_text neg +:+ pretty n +:+ ".000000") ∧
  (∀ p, toString (FDouble (DFinite neg n (Zpos p)))
        = sign_text neg +:+ pretty (n * 2 ^ Npos p)%N +:+ ".000000") ∧
  toString (FDouble (DFinite neg n 0))
  = sign_text neg +:+ pretty n +:+ ".000000".
Proof.
  split; [|split].
  - intros p. cbn [toString to_string_double]. apply whole_micro_units_text.
    unfold micro_units.
    replace (n * 2 ^ N.pos p * 10 ^ 6)%N with (n * 10 ^ 6 * 2 ^ N.pos p)%N
      by lia.
    apply round_half_even_exact. apply N.neq_0_lt_0, N.pow_nonzero. lia.
  - intros p. cbn [toString to_string_double].
    by apply whole_micro_units_text.
  - cbn [toString to_string_double]. by apply whole_micro_units_text.
Qed.

(** X13.  [buildString] does not quote or escape: a [std::string] field
    that contains a comma gives the same line as two fields would, at the
    head of the row and at any later position. *)
Theorem comma_in_field_splits a b :
  (∀ ts, buildString (FString (a +:+ "," +:+ b)) ts
         = buildString (FString a) (FString b :: ts)) ∧
  (∀ t ts1 ts2,
     buildString t (ts1 ++ FString (a +:+ "," +:+ b) :: ts2)
     = buildString t (ts1 ++ FString a :: FString b :: ts2)).
Proof.
  assert (∀ ts, buildString (FString (a +:+ "," +:+ b)) ts
                = buildString (FString a) (FString b :: ts)) as Hhead.
  { intros [|t ts]; cbn [buildString toString]; by rewrite ?append_assoc. }
  split; [done|].
  intros t ts1. revert t. induction ts1 as [|t1 ts1 IH]; intros t ts2.
  - cbn [app buildString]. by rewrite Hhead.
  - cbn [app buildString]. by rewrite IH.
Qed.

Lemma pushes_by_app i tr evs :
  pushes_by i (tr ++ evs) = pushes_by i tr ++ pushes_by i evs.
Proof. apply omap_app. Qed.

Lemma worker_step_pushes_by c s s' evs i :
  worker_step c s = Some (s', evs) → pushes_by i evs = [].
Proof.
  intros Hstep. destruct s as [[op pend] q qm nm st jn w cs f ce].
  unfold worker_step in Hstep; simpl in Hstep. crush_step Hstep; done.
Qed.

Lemma producers_inv_reachable c tr s :
  reachable c tr s → producers_inv c tr s.
Proof.
  induction 1 as [|tr s a s' evs Hr IH Hstep].
  - split; [simpl; by rewrite length_fmap|].
    intros i cl. simpl. rewrite list_lookup_fmap.
    destruct (programs c !! i) as [prog|] eqn:Hp; simpl; [|done].
    intros [= <-]. exists prog. by split.
  - destruct IH as [Hlen Hc]. unfold producers_inv.
    destruct a; simpl in Hstep.
    + pose proof (worker_step_frame _ _ _ _ Hstep) as (_ & -> & _).
      split; [done|]. intros i cl Hi.
      rewrite pushes_by_app, (worker_step_pushes_by _ _ _ _ i Hstep), app_nil_r.
      by apply Hc.
    + destruct s as [out q qm nm st jn w cs f ce]; simpl in *.
      unfold caller_step in Hstep; simpl in Hstep.
      destruct (cs !! i) as [[p td]|] eqn:Hi; simpl in Hstep; [|done].
      pose proof (lookup_lt_Some _ _ _ Hi) as Hlt.
      destruct (Hc i _ Hi) as (prog & Hprog & Hl).
      unfold pending_lines in Hl; simpl in Hl.
      crush_step Hstep; unfold_prims.
      all: try match goal with
               | |- context [if match ?w with WBlocked => _ | _ => _ end
                             then _ else _] => destruct w; simpl in *
               end.
      all: rewrite ?length_insert; (split; [done|]).
      all: intros j cl Hj; rewrite pushes_by_app; simpl;
        destruct (decide (i = j)) as [<-|Hne];
        [ rewrite list_lookup_insert_eq in Hj by done; simplify_eq/=;
          rewrite ?bool_decide_eq_true_2 by done;
          exists prog; (split; [done|]); unfold pending_lines; simpl in *;
          simplify_eq/=; rewrite ?app_nil_r, <- ?app_assoc; done
        | rewrite list_lookup_insert_ne in Hj by done;
          rewrite ?bool_decide_eq_false_2 by done; rewrite ?app_nil_r;
          by apply Hc ].
    + unfold worker_waiting in Hstep.
      destruct (worker s) eqn:Hw; simplify_eq/=. split; [done|].
      intros i cl Hi. rewrite app_nil_r. by apply Hc.
    + destruct (is_open (out_ s)) eqn:Ho; simplify_eq/=.
      unfold stream_sync. rewrite Ho. simpl. split; [done|].
      intros i cl Hi. rewrite app_nil_r. by apply Hc.
Qed.

Lemma holder_inv_reachable c tr s : reachable c tr s → holder_inv s.
Proof.
  induction 1 as [|tr s a s' evs Hr IH Hstep].
  - done.
  - pose proof (mutex_inv_reachable _ _ _ Hr) as [Hmw Hmc].
    pose proof (queue_inv_reachable _ _ _ Hr) as [_ Hq].
    unfold holder_inv in *.
    destruct s as [[op pend] q qm nm st jn w cs f ce]; simpl in *.
    destruct a; simpl in Hstep.
    + unfold worker_step in Hstep; simpl in Hstep. crush_step Hstep.
      all: unfold_prims; repeat case_match; simplify_eq/=; try done.
    + unfold caller_step in Hstep; simpl in Hstep.
      destruct (cs !! i) as [[p td]|] eqn:Hi; simpl in Hstep; [|done].
      pose proof (lookup_lt_Some _ _ _ Hi) as Hlt.
      pose proof (Hmc i _ Hi) as Hci; simpl in Hci.
      crush_step Hstep; unfold_prims.
      all: try match goal with
               | |- context [if match ?w with WBlocked => _ | _ => _ end
                             then _ else _] => destruct w; simpl in *
               end.
      all: repeat case_match; simplify_eq/=; try done.
      all: try (eexists; split; [by apply list_lookup_insert_eq|done]).
      all: destruct IH as (cl & Hj & Hcr);
        match goal with
        | |- ∃ _, <[?i:=_]> _ !! ?j = _ ∧ _ =>
            destruct (decide (i = j)) as [<-|Hne];
            [ simplify_eq/=;
              try (eexists; split; [by apply list_lookup_insert_eq|done])
            | exists cl; by rewrite list_lookup_insert_ne by done ]
        end.
    + unfold_prims. destruct w; simplify_eq/=. by destruct qm as [[|j]|].
    + unfold_prims. destruct op; simplify_eq/=. done.
Qed.

Lemma notify_inv_reachable c tr s : reachable c tr s → notify_inv s.
Proof.
  induction 1 as [|tr s a s' evs Hr IH Hstep].
  - done.
  - pose proof (queue_inv_reachable _ _ _ Hr) as [_ Hq].
    unfold notify_inv in *.
    destruct a; simpl in Hstep.
    + destruct s as [[op pend] q qm nm st jn w cs f ce]; simpl in *.
      unfold worker_step in Hstep; simpl in Hstep. crush_step Hstep.
      all: unfold_prims; repeat case_match; simplify_eq/=; try done.
    + apply caller_step_frame in Hstep as (_ & _ & _ & -> & _ & _ & _ & Hwk).
      rewrite IH. by destruct Hwk as [-> | [-> ->]].
    + unfold worker_waiting in Hstep.
      destruct (worker s) eqn:Hw; simplify_eq/=. done.
    + destruct (is_open (out_ s)) eqn:Ho; simplify_eq/=.
      unfold stream_sync. rewrite Ho. done.
Qed.

(** X14.  With any number of client threads, the lines a thread has
    pushed are a prefix of the lines of its [write] calls, in call order,
    and they occur in the queue history in that order; the rows written
    are a prefix of that history.  A thread that has returned from all
    its calls has pushed every one of its lines. *)
Theorem producers_keep_call_order c tr s i prog :
  reachable c tr s → programs c !! i = Some prog →
  pushes_by i tr `prefix_of` lines_of prog ∧
  pushes_by i tr `sublist_of` pushes tr ∧
  rows_out tr `prefix_of` pushes tr ∧
  (callers s !! i = Some (mk_caller CIdle []) →
   pushes_by i tr = lines_of prog).
Proof.
  intros Hr Hp.
  destruct (producers_inv_reachable _ _ _ Hr) as [Hlen Hc].
  destruct (lookup_lt_is_Some_2 (callers s) i) as [cl Hcl].
  { rewrite Hlen. by eapply lookup_lt_Some. }
  destruct (Hc i cl Hcl) as (prog' & Hp' & Hl). simplify_eq.
  split; [|split; [|split]].
  - rewrite <- Hl. by apply prefix_app_r.
  - clear. induction tr as [|e tr IH]; [done|].
    destruct e; simpl; try done.
    case_bool_decide; [by apply sublist_skip | by apply sublist_cons].
  - destruct (queue_inv_reachable _ _ _ Hr) as [-> _]. by apply prefix_app_r.
  - intros Hfin. simplify_eq. unfold pending_lines in Hl. simpl in Hl.
    by rewrite app_nil_r in Hl.
Qed.

Lemma producers_keep_call_order_witness :
  ∃ s tr, run two_producers_example two_producers_schedule
            (init two_producers_example) = Some (s, tr) ∧
          pushes_by 0 tr = ["a"; "b"] ∧ pushes tr = ["a"; "c"; "b"].
Proof.
  destruct (run two_producers_example two_producers_schedule
              (init two_producers_example)) as [[s tr]|] eqn:Hrun;
    [|by vm_compute in Hrun].
  exists s, tr. split; [done|]. split.
  - apply (producers_keep_call_order two_producers_example tr s 0
             [write (FString "a") []; write (FString "b") []; destroy]).
    + by eapply run_from_init.
    + reflexivity.
    + vm_compute in Hrun. by simplify_eq.
  - vm_compute in Hrun. by simplify_eq.
Defined.

(** X15.  [q_mutex_] gives mutual exclusion on [q_]: at most one client
    thread is between [lock] and the end of [write]'s critical section,
    never together with the worker between its [q_lock] and [unlock()];
    the mutex is free exactly when no thread is in such a section; and
    its holder can always take its next step, so the lock is never held
    by a blocked thread. *)
Theorem queue_lock_is_exclusive c tr s :
  reachable c tr s →
  (∀ i j cli clj,
     callers s !! i = Some cli → callers s !! j = Some clj →
     in_critical (pc cli) = true → in_critical (pc clj) = true → i = j) ∧
  (∀ i cl, callers s !! i = Some cl → in_critical (pc cl) = true →
           holds_q (worker s) = false) ∧
  (q_mutex_ s = None ↔
   holds_q (worker s) = false ∧
   ∀ i cl, callers s !! i = Some cl → in_critical (pc cl) = false) ∧
  (q_mutex_ s = Some ByWorker →
   ∃ s' evs, step c RunWorker s = Some (s', evs)) ∧
  (∀ i, q_mutex_ s = Some (ByCaller i) →
        ∃ s' evs, step c (RunCaller i) s = Some (s', evs)).
Proof.
  intros Hr.
  destruct (mutex_inv_reachable _ _ _ Hr) as [Hmw Hmc].
  pose proof (holder_inv_reachable _ _ _ Hr) as Hh.
  pose proof (queue_inv_reachable _ _ _ Hr) as [_ Hq].
  unfold holder_inv in Hh.
  split; [|split; [|split; [|split]]].
  - intros i j cli clj Hi Hj Hci Hcj.
    pose proof (Hmc _ _ Hi Hci). pose proof (Hmc _ _ Hj Hcj). congruence.
  - intros i cl Hi Hci. pose proof (Hmc _ _ Hi Hci) as Hm.
    destruct (worker s); try done; simpl in Hmw; congruence.
  - split.
    + intros Hfree. split.
      * destruct (worker s); try done; simpl in Hmw; congruence.
      * intros i cl Hi. destruct (in_critical (pc cl)) eqn:Hc; [|done].
        pose proof (Hmc _ _ Hi Hc). congruence.
    + intros [Hw Hc]. destruct (q_mutex_ s) as [[|i]|]; [congruence| |done].
      destruct Hh as (cl & Hi & Hcr). rewrite (Hc _ _ Hi) in Hcr. done.
  - intros Hm. rewrite Hm in Hh. simpl. unfold worker_step.
    destruct (worker s) eqn:Hw; try done; eauto.
    destruct (q_ s); [done|eauto].
  - intros i Hm. rewrite Hm in Hh. destruct Hh as ([p td] & Hi & Hcr).
    simpl. unfold caller_step. rewrite Hi. simpl in *.
    destruct p; try done; eauto.
Qed.

Lemma queue_lock_is_exclusive_witness :
  ∃ s tr, run two_producers_example (replicate 2 (RunCaller 1))
            (init two_producers_example) = Some (s, tr) ∧
          q_mutex_ s = Some (ByCaller 1) ∧
          ∃ s' evs, step two_producers_example (RunCaller 1) s
                    = Some (s', evs).
Proof.
  destruct (run two_producers_example (replicate 2 (RunCaller 1))
              (init two_producers_example)) as [[s tr]|] eqn:Hrun;
    [|by vm_compute in Hrun].
  assert (q_mutex_ s = Some (ByCaller 1)) as Hm.
  { vm_compute in Hrun. by simplify_eq. }
  exists s, tr. split; [done|]. split; [done|].
  apply (queue_lock_is_exclusive two_producers_example tr s).
  - by eapply run_from_init.
  - done.
Defined.

Lemma caller_step_queue i s s' evs :
  caller_step i s = Some (s', evs) → q_ s' = q_ s ++ pushes evs.
Proof.
  intros Hstep. destruct s as [out q qm nm st jn w cs f ce].
  unfold caller_step in Hstep; simpl in Hstep. crush_step Hstep.
  all: unfold_prims; rewrite ?app_nil_r; try done.
  all: by destruct w.
Qed.

(** X19.  After [loop()] has returned the writer is inert: whatever the
    clients do, the file, the stream and the diagnostics stay as they
    are and nothing is sent to the stream; lines of later [write] calls
    only pile up in the queue. *)
Theorem nothing_after_worker_exit c sched : ∀ tr s s' evs,
  reachable c tr s → worker s = WDone →
  run c sched s = Some (s', evs) →
  worker s' = WDone ∧ file s' = file s ∧ out_ s' = out_ s ∧
  cerr s' = cerr s ∧ sent evs = [] ∧ q_ s' = q_ s ++ pushes evs.
Proof.
  induction sched as [|a sched IH]; intros tr s s' evs Hr Hw Hrun;
    simpl in Hrun.
  - simplify_eq. simpl. by rewrite app_nil_r.
  - destruct (step c a s) as [[s1 evs1]|] eqn:Hs; [|done].
    destruct (run c sched s1) as [[s2 evs2]|] eqn:Hr2; [|done].
    simplify_eq.
    assert (worker s1 = WDone ∧ file s1 = file s ∧ out_ s1 = out_ s ∧
            cerr s1 = cerr s ∧ sent evs1 = [] ∧ q_ s1 = q_ s ++ pushes evs1)
      as (Hw1 & Hf1 & Ho1 & Hc1 & Hs1 & Hq1).
    { destruct a; simpl in Hs.
      - unfold worker_step in Hs. by rewrite Hw in Hs.
      - pose proof (caller_step_queue _ _ _ _ Hs) as Hq.
        apply caller_step_frame in Hs
          as (? & ? & ? & _ & ? & _ & _ & [Hwk | [Hwk _]]);
          [by rewrite Hwk | congruence].
      - unfold worker_waiting in Hs. by rewrite Hw in Hs.
      - destruct (stream_inv_reachable _ _ _ Hr) as (_ & _ & Hst).
        rewrite Hw in Hst. destruct Hst as (Hop & _). by rewrite Hop in Hs. }
    destruct (IH _ _ _ _ (reachable_step _ _ _ _ _ _ Hr Hs) Hw1 Hr2)
      as (-> & -> & -> & -> & Hs2 & ->).
    rewrite sent_app, pushes_app, Hs1, Hs2, Hq1, app_assoc. done.
Qed.

Lemma nothing_after_worker_exit_witness :
  ∃ s tr s' evs,
    run two_producers_example late_write_schedule
      (init two_producers_example) = Some (s, tr) ∧
    run two_producers_example (replicate 5 (RunCaller 1)) s
      = Some (s', evs) ∧
    file s' = file s ∧ q_ s' = q_ s ++ pushes evs.
Proof.
  destruct (run two_producers_example late_write_schedule
              (init two_producers_example)) as [[s tr]|] eqn:Hrun;
    [|by vm_compute in Hrun].
  destruct (run two_producers_example (replicate 5 (RunCaller 1)) s)
    as [[s' evs]|] eqn:Hrun'.
  2:{ vm_compute in Hrun. by simplify_eq. }
  exists s, tr, s', evs. split; [done|]. split; [done|].
  destruct (nothing_after_worker_exit two_producers_example
              (replicate 5 (RunCaller 1)) tr s s' evs)
    as (_ & Hf & _ & _ & _ & Hq).
  - by eapply run_from_init.
  - vm_compute in Hrun. by simplify_eq.
  - done.
  - by split.
Defined.

(** X20.  Along every run, [stop_] is never reset, a finished worker
    stays finished, a joined thread does not become joinable again, and
    the worker never returns to opening the file: [loop()] runs once. *)
Theorem shutdown_is_final c sched : ∀ s s' evs,
  run c sched s = Some (s', evs) →
  (stop_ s = true → stop_ s' = true) ∧
  (worker s = WDone → worker s' = WDone) ∧
  (joinable s = false → joinable s' = false) ∧
  (worker s ≠ WOpen → worker s' ≠ WOpen).
Proof.
  induction sched as [|a sched IH]; intros s s' evs Hrun; simpl in Hrun.
  - by simplify_eq.
  - destruct (step c a s) as [[s1 evs1]|] eqn:Hs; [|done].
    destruct (run c sched s1) as [[s2 evs2]|] eqn:Hr2; [|done].
    simplify_eq. destruct (IH _ _ _ Hr2) as (H1 & H2 & H3 & H4).
    assert ((stop_ s = true → stop_ s1 = true) ∧
            (worker s = WDone → worker s1 = WDone) ∧
            (joinable s = false → joinable s1 = false) ∧
            (worker s ≠ WOpen → worker s1 ≠ WOpen)) as (G1 & G2 & G3 & G4).
    { destruct s as [[op pend] q qm nm st jn w cs f ce]; simpl in *.
      step_inv Hs; crush_step Hs; unfold_prims.
      all: repeat case_match; simplify_eq/=; by repeat split. }
    repeat split; auto.
Qed.

Lemma shutdown_is_final_witness :
  ∃ s tr s' evs,
    run two_producers_example late_write_schedule
      (init two_producers_example) = Some (s, tr) ∧
    run two_producers_example (replicate 5 (RunCaller 1)) s
      = Some (s', evs) ∧
    stop_ s' = true ∧ worker s' = WDone.
Proof.
  destruct (run two_producers_example late_write_schedule
              (init two_producers_example)) as [[s tr]|] eqn:Hrun;
    [|by vm_compute in Hrun].
  destruct (run two_producers_example (replicate 5 (RunCaller 1)) s)
    as [[s' evs]|] eqn:Hrun'.
  2:{ vm_compute in Hrun. by simplify_eq. }
  exists s, tr, s', evs. split; [done|]. split; [done|].
  destruct (shutdown_is_final two_producers_example
              (replicate 5 (RunCaller 1)) s s' evs Hrun')
    as (Hs & Hw & _).
  vm_compute in Hrun. simplify_eq. split; [by apply Hs | by apply Hw].
Defined.

Lemma worker_alone_step c tr s :
  reachable c tr s → can_open c = true → header_ok c →
  stop_ s = true → clients_outside s →
  can_finish (worker s) = true ∨
  (drained (worker s) = true ∧ worker s ≠ WDone ∧ q_ s = []) →
  ∃ s' evs, step c RunWorker s = Some (s', evs) ∧
            steps_left s' < steps_left s ∧
            stop_ s' = true ∧ clients_outside s' ∧
            (can_finish (worker s') = true ∨
             (drained (worker s') = true ∧ q_ s' = [])) ∧
            callers s' = callers s.
Proof.
  intros Hr Hopen Hok Hstop Hout Hgood.
  pose proof (queue_inv_reachable _ _ _ Hr) as [_ Hq].
  pose proof (notify_inv_reachable _ _ _ Hr) as Hn.
  pose proof (holder_inv_reachable _ _ _ Hr) as Hh.
  destruct (stream_inv_reachable _ _ _ Hr) as (_ & _ & Hst).
  assert (has_header_ c = true →
          header_text (header_ c)
          = Some (String.concat "," (header_ c) +:+ newline)) as Hht.
  { intros Hhas. apply header_text_joined. by apply Hok. }
  unfold clients_outside, holder_inv, notify_inv, steps_left in *.
  destruct s as [[op pend] q qm nm st jn w cs f ce]; simpl in *. subst st.
  assert (holds_q w = false → qm = None) as Hfree.
  { intros Hw. destruct qm as [[|i]|]; [congruence| |done].
    by destruct (Hout i). }
  unfold worker_step, stream_put, stream_sync, stream_close; simpl.
  destruct w as [| | | | | | | |k|k|k|k f0|k f0| | | |]; simpl in *;
    try (destruct Hgood as [? | (? & ? & ?)]; done);
    destruct_and?; simplify_eq/=; rewrite ?Hopen; simpl.
  - eexists _, _; (split; [reflexivity|]); simpl. repeat split; auto; lia.
  - destruct (has_header_ c) eqn:Hhas; [rewrite Hht by done|];
      eexists _, _; (split; [reflexivity|]); simpl; repeat split; auto; lia.
  - eexists _, _; (split; [reflexivity|]); simpl. repeat split; auto; lia.
  - eexists _, _; (split; [reflexivity|]); simpl. repeat split; auto; lia.
  - eexists _, _; (split; [reflexivity|]); simpl. repeat split; auto; lia.
  - destruct q as [|l q]; destruct k;
      eexists _, _; (split; [reflexivity|]); simpl; repeat split; auto; lia.
  - rewrite Hfree by done. destruct k;
      eexists _, _; (split; [reflexivity|]); simpl; repeat split; auto;
      simpl; lia.
  - destruct q as [|l q]; [done|]. destruct k;
      eexists _, _; (split; [reflexivity|]); simpl; repeat split; auto;
      simpl; lia.
  - destruct k;
      eexists _, _; (split; [reflexivity|]); simpl; repeat split; auto;
      simpl; lia.
  - destruct k;
      eexists _, _; (split; [reflexivity|]); simpl; repeat split; auto;
      simpl; lia.
  - destruct Hgood as [? | (_ & _ & ->)]; [done|].
    eexists _, _; (split; [reflexivity|]); simpl. repeat split; auto.
  - destruct Hgood as [? | (_ & _ & ->)]; [done|].
    eexists _, _; (split; [reflexivity|]); simpl. repeat split; auto.
Qed.

Lemma worker_alone_runs c n : ∀ tr s,
  steps_left s ≤ n →
  reachable c tr s → can_open c = true → header_ok c →
  stop_ s = true → clients_outside s →
  can_finish (worker s) = true ∨ (drained (worker s) = true ∧ q_ s = []) →
  ∃ k s' evs, run c (replicate k RunWorker) s = Some (s', evs) ∧
              worker s' = WDone ∧ q_ s' = [] ∧ callers s' = callers s ∧
              stop_ s' = true ∧ k ≤ n.
Proof.
  induction n as [|n IH]; intros tr s Hn Hr Hopen Hok Hstop Hout Hgood.
  - assert (worker s = WDone ∧ q_ s = []) as [Hw Hq].
    { unfold steps_left in Hn. destruct Hgood as [Hc | [Hd Hq]].
      - destruct (worker s) as [| | | | | | | |[]|[]|[]|[]|[]| | | |];
          simpl in *; try done; lia.
      - split; [|done].
        destruct (worker s); simpl in *; try done; lia. }
    exists 0, s, []. by repeat split.
  - assert (worker s = WDone ∨ worker s ≠ WDone) as [Hw|Hw]
      by (destruct (worker s); first [by left | by right]).
    { exists 0, s, []. repeat split; try done; [|lia].
      destruct Hgood as [Hc | [_ Hq]]; [by rewrite Hw in Hc | done]. }
    destruct (worker_alone_step c tr s Hr Hopen Hok Hstop Hout)
      as (s1 & evs1 & Hs & Hlt & Hstop1 & Hout1 & Hgood1 & Hc1).
    { destruct Hgood as [? | [? ?]]; auto. }
    destruct (IH _ s1 ltac:(lia) (reachable_step _ _ _ _ _ _ Hr Hs)
                Hopen Hok Hstop1 Hout1 Hgood1)
      as (k & s' & evs & Hrun & Hw' & Hq' & Hc' & Hst' & Hk).
    exists (S k), s', (evs1 ++ evs). split.
    + simpl. simpl in Hs. by rewrite Hs, Hrun.
    + repeat split; try done; [congruence | lia].
Qed.

Lemma run_worker_pushes c k : ∀ s s' evs,
  run c (replicate k RunWorker) s = Some (s', evs) → pushes evs = [].
Proof.
  induction k as [|k IH]; intros s s' evs Hrun; simpl in Hrun.
  - by simplify_eq.
  - destruct (worker_step c s) as [[s1 evs1]|] eqn:Hs; [|done].
    destruct (run c (replicate k RunWorker) s1) as [[s2 evs2]|] eqn:Hr2;
      [|done].
    simplify_eq. rewrite pushes_app.
    pose proof (worker_step_frame _ _ _ _ Hs) as (_ & _ & _ & -> & _).
    by rewrite (IH _ _ _ Hr2).
Qed.

Lemma worker_alone_completes c tr s :
  reachable c tr s → can_open c = true → header_ok c →
  stop_ s = true → clients_outside s → can_finish (worker s) = true →
  ∃ k s' evs, run c (replicate k RunWorker) s = Some (s', evs) ∧
              worker s' = WDone ∧ q_ s' = [] ∧
              callers s' = callers s ∧
              is_open (out_ s') = false ∧
              file s' = Some (flat (header_block c) +:+
                              lines_text (pushes tr)) ∧
              k ≤ steps_left s.
Proof.
  intros Hr Hopen Hok Hstop Hout Hcan.
  destruct (worker_alone_runs c (steps_left s) tr s (le_n _) Hr Hopen Hok
              Hstop Hout (or_introl Hcan))
    as (k & s' & evs & Hrun & Hw & Hq & Hc & _ & Hk).
  exists k, s', evs. split; [done|].
  pose proof (run_reachable _ _ _ _ _ _ Hr Hrun) as Hr'.
  destruct (queue_inv_reachable _ _ _ Hr') as [Hqi _].
  destruct (stream_inv_reachable _ _ _ Hr') as (Hsent & _ & Hst).
  rewrite Hw, Hopen in Hst, Hsent. rewrite Hw, Hq in Hqi. simpl in *.
  destruct Hst as (-> & _ & -> & _).
  rewrite pushes_app, (run_worker_pushes _ _ _ _ _ Hrun), !app_nil_r in Hqi.
  repeat split; try done.
  by rewrite Hsent, flat_app, <- Hqi.
Qed.

Lemma worker_offset_bound w : worker_offset w ≤ 8.
Proof. destruct w as [| | | | | | | |[]|[]|[]|[]|[]| | | |]; simpl; lia. Qed.

(** X16.  On a path that can be opened, with a header that has at
    least one column if one is configured: once [stop_] is set and the
    worker is running (neither suspended in [wait] nor about to enter
    it, not yet past its final [dumpQ()], and no client inside the
    queue's critical section), the worker finishes on its own: a bounded
    number of its steps drains the queue, flushes, closes the stream and
    returns from [loop()]; the file then holds the header block and
    every line pushed so far.  Six steps per queued line and eight more
    are enough. *)
Theorem worker_alone_finishes c tr s :
  reachable c tr s → can_open c = true → header_ok c →
  stop_ s = true → clients_outside s → can_finish (worker s) = true →
  ∃ k s' evs, run c (replicate k RunWorker) s = Some (s', evs) ∧
              k ≤ 6 * length (q_ s) + 8 ∧
              worker s' = WDone ∧ q_ s' = [] ∧
              callers s' = callers s ∧
              is_open (out_ s') = false ∧
              file s' = Some (flat (header_block c) +:+
                              lines_text (pushes tr)).
Proof.
  intros Hr Hopen Hok Hstop Hout Hcan.
  destruct (worker_alone_completes c tr s Hr Hopen Hok Hstop Hout Hcan)
    as (k & s' & evs & Hrun & Hw & Hq & Hc & Ho & Hf & Hk).
  exists k, s', evs. split; [done|]. split.
  - unfold steps_left in Hk. pose proof (worker_offset_bound (worker s)). lia.
  - done.
Qed.

Lemma worker_alone_finishes_witness :
  ∃ s tr k s' evs,
    run (header_example "P" None) (replicate 13 (RunCaller 0))
      (init (header_example "P" None)) = Some (s, tr) ∧
    run (header_example "P" None) (replicate k RunWorker) s
      = Some (s', evs) ∧
    worker s' = WDone ∧ q_ s' = [].
Proof.
  destruct (run (header_example "P" None) (replicate 13 (RunCaller 0))
              (init (header_example "P" None))) as [[s tr]|] eqn:Hrun;
    [|by vm_compute in Hrun].
  destruct (worker_alone_finishes (header_example "P" None) tr s)
    as (k & s' & evs & Hrun' & _ & Hw & Hq & _).
  - by eapply run_from_init.
  - reflexivity.
  - intros _. simpl. discriminate.
  - vm_compute in Hrun. by simplify_eq.
  - vm_compute in Hrun. simplify_eq. intros i. simpl. discriminate.
  - vm_compute in Hrun. by simplify_eq.
  - by exists s, tr, k, s', evs.
Defined.

Lemma run_app c l1 : ∀ l2 s s1 evs1 s2 evs2,
  run c l1 s = Some (s1, evs1) → run c l2 s1 = Some (s2, evs2) →
  run c (l1 ++ l2) s = Some (s2, evs1 ++ evs2).
Proof.
  induction l1 as [|a l1 IH]; intros l2 s s1 evs1 s2 evs2 H1 H2;
    simpl in H1.
  - by simplify_eq.
  - destruct (step c a s) as [[sa evsa]|] eqn:Hs; [|done].
    destruct (run c l1 sa) as [[sb evsb]|] eqn:Hr; [|done]. simplify_eq.
    simpl. rewrite Hs, (IH _ _ _ _ _ _ Hr H2). by rewrite app_assoc.
Qed.

Lemma run_callers_worker c i k : ∀ s s' evs,
  run c (replicate k (RunCaller i)) s = Some (s', evs) →
  worker s ≠ WBlocked → worker s' = worker s.
Proof.
  induction k as [|k IH]; intros s s' evs Hrun Hw; simpl in Hrun.
  - by simplify_eq.
  - destruct (caller_step i s) as [[s1 evs1]|] eqn:Hs; [|done].
    destruct (run c (replicate k (RunCaller i)) s1) as [[s2 evs2]|] eqn:Hr;
      [|done]. simplify_eq.
    apply caller_step_frame in Hs as (_ & _ & _ & _ & _ & _ & _ & Hwk).
    destruct Hwk as [Hwk | [Hwk _]]; [|done].
    rewrite (IH _ _ _ Hr); congruence.
Qed.




(** X18.  For a single owner thread with any rows, on a path that can
    be opened and with a header that has at least one column if one is
    configured: in every run in which the owner has returned from the
    destructor, the file holds the header columns joined by commas and a
    line feed (if a header was given), then the rows in call order, each
    with its fields joined by commas and ended by a line feed; the
    stream is closed with nothing buffered and the queue is empty. *)
Theorem single_owner_file c rows tr s :
  programs c = [owner_program rows] → can_open c = true → header_ok c →
  reachable c tr s → callers s = [mk_caller CIdle []] →
  file s = Some ((if has_header_ c
                  then String.concat "," (header_ c) +:+ newline else "")
                 +:+ lines_text ((λ r, comma_joined r.1 r.2) <$> rows)) ∧
  is_open (out_ s) = false ∧ pending (out_ s) = "" ∧
  rows_out tr = (λ r, comma_joined r.1 r.2) <$> rows ∧ q_ s = [].
Proof.
  intros Hp Hopen Hok Hr Hfin.
  destruct (owner_run_complete _ _ _ _ Hp Hopen Hr Hfin) as (Hf & Hio & Hpe).
  assert ((λ r : field * list field, buildString r.1 r.2) <$> rows
          = (λ r, comma_joined r.1 r.2) <$> rows) as Hrows.
  { apply list_fmap_ext. intros _ r _. apply buildString_comma_joined. }
  assert (flat (header_block c)
          = if has_header_ c
            then String.concat "," (header_ c) +:+ newline else "") as Hh.
  { unfold header_block. destruct (has_header_ c) eqn:Hhas; [|done].
    rewrite header_text_joined by (by apply Hok).
    unfold flat. simpl. by rewrite append_empty_r. }
  rewrite Hf, Hh, Hrows. split; [done|]. split; [done|]. split; [done|].
  destruct (owner_inv_reachable _ _ _ _ Hp Hr) as (cl & Hcl & Ho).
  destruct (single_inv_reachable _ _ _ _ Hp Hr) as (cl' & Hcl' & Hl).
  rewrite Hfin in Hcl, Hcl'. simplify_eq. simpl in *.
  destruct (stopped tr) eqn:Hs.
  2:{ destruct Ho as [_ [rows' Ho]]. by destruct rows'. }
  destruct Ho as (_ & Hb & Hj).
  destruct (join_inv_reachable _ _ _ Hr) as [_ Hd]. specialize (Hd Hj).
  destruct (stop_inv_reachable _ _ _ Hr) as (_ & _ & Hdr).
  rewrite Hd in Hdr. specialize (Hdr eq_refl Hopen).
  destruct (queue_inv_reachable _ _ _ Hr) as [Hq _].
  rewrite Hd in Hq. simpl in Hq.
  rewrite Hb in Hdr.
  pose proof (prefix_length_eq _ _ Hdr) as Heq.
  rewrite Hq, length_app in Heq. specialize (Heq ltac:(lia)).
  unfold pending_lines in Hl. simpl in Hl. rewrite app_nil_r in Hl.
  rewrite lines_of_owner_program, Hrows in Hl.
  assert (q_ s = []) as Hq0.
  { apply (f_equal length) in Heq. rewrite length_app in Heq.
    destruct (q_ s); [done|simpl in Heq; lia]. }
  split; [|done]. rewrite Hq0, app_nil_r in Hq. congruence.
Qed.

Lemma single_owner_file_witness :
  ∃ s tr, run (header_example "P" None) header_example_schedule
            (init (header_example "P" None)) = Some (s, tr) ∧
          q_ s = [] ∧ is_open (out_ s) = false.
Proof.
  destruct (run (header_example "P" None) header_example_schedule
              (init (header_example "P" None))) as [[s tr]|] eqn:Hrun;
    [|by vm_compute in Hrun].
  exists s, tr. split; [done|].
  destruct (single_owner_file (header_example "P" None)
              [(FInt 1, [FDouble two; FString "a"]);
               (FInt 2, [FDouble three; FString "b"])] tr s)
    as (_ & Hio & _ & _ & Hq).
  - reflexivity.
  - reflexivity.
  - intros _. simpl. discriminate.
  - by eapply run_from_init.
  - vm_compute in Hrun. by simplify_eq.
  - by split.
Defined.

(** ** The drain at work *)

(** One round of [dumpQ()]: the test, the lock, [front()] and [pop()],
    the unlock and [out_ << f << "\n"]. *)
Lemma drain_round c k f rest out nm st jn cs fl ce :
  run c (replicate 5 RunWorker)
    (mk_state out (f :: rest) None nm st jn (WEmpty k) cs fl ce)
  = Some (stream_put (f +:+ newline)
            (mk_state out rest None nm st jn (WEmpty k) cs fl ce),
          [EvRow f]).
Proof. by destruct out as [[] pend]. Qed.

(** [dumpQ()] run without interruption while [q_mutex_] is free: five
    steps per queued line and the last test of [q_.empty()]. *)
Lemma drain_runs c k q : ∀ s,
  worker s = WEmpty k → q_ s = q → q_mutex_ s = None →
  ∃ s' evs,
    run c (replicate (5 * length q + 1) RunWorker) s = Some (s', evs) ∧
    worker s' = after_drain k ∧ q_ s' = [] ∧ q_mutex_ s' = None ∧
    rows_out evs = q ∧ pushes evs = [] ∧ callers s' = callers s ∧
    (is_open (out_ s) = true → written s' = written s +:+ lines_text q).
Proof.
  induction q as [|f rest IH]; intros s Hw Hq Hm.
  - destruct s as [out q0 qm nm st jn w cs fl ce].
    cbn [worker q_ q_mutex_] in *. subst.
    eexists _, _. split; [reflexivity|]. cbn. repeat split.
    intros _. by rewrite append_empty_r.
  - destruct s as [out q0 qm nm st jn w cs fl ce].
    cbn [worker q_ q_mutex_ callers out_] in *. subst.
    destruct (IH (stream_put (f +:+ newline)
                    (mk_state out rest None nm st jn (WEmpty k) cs fl ce)))
      as (s' & evs & Hrun & Hw' & Hq' & Hm' & Hrows & Hp & Hc & Hwr).
    { by destruct out as [[] ?]. }
    { by destruct out as [[] ?]. }
    { by destruct out as [[] ?]. }
    exists s', ([EvRow f] ++ evs). split.
    + replace (5 * length (f :: rest) + 1)
        with (5 + (5 * length rest + 1)) by (cbn [length]; lia).
      rewrite replicate_add. eapply run_app; [apply drain_round | done].
    + split; [done|]. split; [done|]. split; [done|].
      split; [by rewrite rows_out_app, Hrows|].
      split; [by rewrite pushes_app, Hp|].
      split; [by rewrite Hc; destruct out as [[] ?]|].
      intros Hopen. destruct out as [op pend]. cbn in Hopen. subst op.
      rewrite Hwr by done.
      unfold written, stream_put, lines_text, as_line. cbn.
      by rewrite !append_assoc.
Qed.

(** Client steps of one thread leave the stream alone; what they push
    is appended to the queue. *)
Lemma run_caller_frame c i k : ∀ s s' evs,
  run c (replicate k (RunCaller i)) s = Some (s', evs) →
  out_ s' = out_ s ∧ file s' = file s ∧ rows_out evs = [] ∧
  q_ s' = q_ s ++ pushes evs.
Proof.
  induction k as [|k IH]; intros s s' evs Hrun; simpl in Hrun.
  - simplify_eq. simpl. by rewrite app_nil_r.
  - destruct (caller_step i s) as [[s1 evs1]|] eqn:Hs; [|done].
    destruct (run c (replicate k (RunCaller i)) s1) as [[s2 evs2]|] eqn:Hr;
      [|done]. simplify_eq.
    destruct (IH _ _ _ Hr) as (Ho & Hf & Hro & Hq).
    pose proof (caller_step_queue _ _ _ _ Hs) as Hq1.
    apply caller_step_frame in Hs as (Ho1 & Hf1 & _ & _ & _ & Hro1 & _).
    rewrite rows_out_app, pushes_app, Hro, Hro1, Hq, Hq1, app_assoc.
    repeat split; congruence.
Qed.

(** A client thread inside the critical section of [write] leaves it
    within three of its own steps. *)
Lemma critical_section_ends c tr s i :
  reachable c tr s → q_mutex_ s = Some (ByCaller i) →
  ∃ n s' evs, run c (replicate n (RunCaller i)) s = Some (s', evs) ∧
              n ≤ 3 ∧ q_mutex_ s' = None.
Proof.
  intros Hr Hm. pose proof (holder_inv_reachable _ _ _ Hr) as Hh.
  unfold holder_inv in Hh. rewrite Hm in Hh. destruct Hh as (cl & Hcl & Hin).
  pose proof (lookup_lt_Some _ _ _ Hcl) as Hlt. clear Hr.
  destruct s as [out q qm nm st jn w cs f ce].
  cbn [callers q_mutex_] in *. subst qm.
  assert (∀ (l : list caller) x, length l = length cs →
            <[i:=x]> l !! i = Some x) as Hlook.
  { intros l x Hl. apply list_lookup_insert_eq. by rewrite Hl. }
  destruct cl as [[] td]; try done.
  - exists 3. eexists _, _. split; [|split; [lia|]].
    + change (replicate 3 (RunCaller i)) with
        [RunCaller i; RunCaller i; RunCaller i].
      eapply run_cons.
      { unfold step, caller_step. cbn [callers]. rewrite Hcl. reflexivity. }
      eapply run_cons.
      { unfold step, caller_step, set_caller. rewrite notify_one_eq. cbn.
        rewrite Hlook by done. reflexivity. }
      eapply run_cons; [|reflexivity].
      unfold step, caller_step, set_caller. cbn.
      rewrite Hlook by (by rewrite !length_insert). reflexivity.
    + done.
  - exists 2. eexists _, _. split; [|split; [lia|]].
    + change (replicate 2 (RunCaller i)) with [RunCaller i; RunCaller i].
      eapply run_cons.
      { unfold step, caller_step. rewrite notify_one_eq. cbn [callers].
        rewrite Hcl. reflexivity. }
      eapply run_cons; [|reflexivity].
      unfold step, caller_step, set_caller. cbn.
      rewrite Hlook by done. reflexivity.
    + done.
  - exists 1. eexists _, _. split; [|split; [lia|]].
    + change (replicate 1 (RunCaller i)) with [RunCaller i].
      eapply run_cons; [|reflexivity].
      unfold step, caller_step. cbn [callers]. rewrite Hcl. reflexivity.
    + done.
Qed.

(** From the first test of [dumpQ()], some schedule takes the drain to
    its end: the thread that holds [q_mutex_], if any, finishes its
    [write], then the worker runs alone. *)
Lemma drain_completes c tr s k :
  reachable c tr s → worker s = WEmpty k →
  ∃ sched s' evs,
    run c sched s = Some (s', evs) ∧
    worker s' = after_drain k ∧ q_ s' = [] ∧
    rows_out evs = q_ s ++ pushes evs ∧
    written s' = written s +:+ lines_text (q_ s ++ pushes evs).
Proof.
  intros Hr Hw.
  destruct (stream_inv_reachable _ _ _ Hr) as (_ & _ & Hst).
  rewrite Hw in Hst. destruct Hst as (_ & Hopen & _).
  pose proof (holder_inv_reachable _ _ _ Hr) as Hh. unfold holder_inv in Hh.
  destruct (q_mutex_ s) as [[|i]|] eqn:Hm.
  - by rewrite Hw in Hh.
  - destruct (critical_section_ends _ _ _ _ Hr Hm)
      as (n & s1 & evs1 & Hrun1 & _ & Hm1).
    destruct (run_caller_frame _ _ _ _ _ _ Hrun1) as (Ho1 & Hf1 & Hro1 & Hq1).
    pose proof (run_callers_worker _ _ _ _ _ _ Hrun1) as Hw1.
    rewrite Hw in Hw1. specialize (Hw1 ltac:(done)).
    destruct (drain_runs c k _ s1 Hw1 eq_refl Hm1)
      as (s' & evs & Hrun & Hw' & Hq' & _ & Hrows & Hp & _ & Hwr).
    exists (replicate n (RunCaller i) ++
            replicate (5 * length (q_ s1) + 1) RunWorker), s', (evs1 ++ evs).
    split; [by eapply run_app|]. split; [done|]. split; [done|].
    rewrite rows_out_app, pushes_app, Hro1, Hp, Hrows, Hq1, app_nil_r.
    split; [done|]. rewrite Hwr by congruence. unfold written.
    by rewrite Ho1, Hf1, Hq1.
  - destruct (drain_runs c k _ s Hw eq_refl Hm)
      as (s' & evs & Hrun & Hw' & Hq' & _ & Hrows & Hp & _ & Hwr).
    exists (replicate (5 * length (q_ s) + 1) RunWorker), s', evs.
    rewrite Hp, app_nil_r. by rewrite Hwr.
Qed.

(** A single owner thread: when the worker leaves its final [dumpQ()],
    every row of the owner has been sent to [out_], in call order. *)
Lemma owner_rows_drained c rows tr s :
  programs c = [owner_program rows] → reachable c tr s → worker s = WFlush →
  rows_out tr = (λ r, buildString r.1 r.2) <$> rows ∧ q_ s = [] ∧
  written s = flat (header_block c) +:+
              lines_text ((λ r, buildString r.1 r.2) <$> rows).
Proof.
  intros Hp Hr Hw.
  destruct (stream_inv_reachable _ _ _ Hr) as (Hsent & _ & Hst).
  rewrite Hw in Hst, Hsent. destruct Hst as (Hopen & _ & Hwr & _).
  rewrite Hopen in Hsent. simpl in Hsent.
  destruct (stop_inv_reachable _ _ _ Hr) as (Hstop & Hleave & Hdr).
  rewrite Hw in Hleave, Hdr. specialize (Hleave eq_refl Hopen).
  specialize (Hdr eq_refl Hopen). rewrite Hleave in Hstop.
  destruct (owner_inv_reachable _ _ _ _ Hp Hr) as (cl & Hcl & Ho).
  rewrite <- Hstop in Ho. destruct Ho as (Htd & Hb & Hpc).
  destruct (single_inv_reachable _ _ _ _ Hp Hr) as (cl' & Hcl' & Hl).
  rewrite Hcl in Hcl'. simplify_eq.
  assert (pending_lines cl' = []) as Hpl.
  { unfold pending_lines. rewrite Htd. by destruct (pc cl'). }
  rewrite Hpl, app_nil_r, lines_of_owner_program in Hl.
  destruct (queue_inv_reachable _ _ _ Hr) as [Hq _].
  rewrite Hw in Hq. simpl in Hq. rewrite Hb in Hdr.
  assert (q_ s = []) as Hq0.
  { apply prefix_length in Hdr. rewrite Hq, length_app in Hdr.
    apply length_zero_iff_nil. lia. }
  rewrite Hq0, app_nil_r in Hq.
  split; [congruence|]. split; [done|].
  rewrite Hwr, Hsent, flat_app. unfold lines_text. congruence.
Qed.

(** C4.  In every reachable state the rows sent to [out_] are a prefix
    of the pushed lines, in push order, each one followed by a line feed
    and all of them behind the header block; what is not yet written is
    in the worker's hand or still queued, so nothing is reordered,
    duplicated or dropped; with a single producer the pushed lines are a
    prefix of the lines of its [write] calls, in call order.  The drain
    does write what is queued: started while [q_mutex_] is free and run
    without interruption, [dumpQ()] takes five steps per queued line and
    one more, sends exactly the queued lines to [out_], front first,
    each followed by a line feed, and leaves the queue empty; from every
    state in which [dumpQ()] starts, some schedule takes it to its end
    with every line that was queued, and every line pushed meanwhile,
    written in that order.  For a single owner, at the end of the final
    [dumpQ()] the rows of all its [write] calls stand behind the header
    block in call order and the queue is empty. *)
Theorem drain_is_fifo c tr s :
  reachable c tr s →
  pushes tr = rows_out tr ++ in_hand (worker s) ++ q_ s ∧
  rows_out tr `prefix_of` pushes tr ∧
  sent tr =
    (if header_done (worker s) && can_open c then header_block c else []) ++
    (as_line <$> rows_out tr) ∧
  (can_open c = true → worker s ≠ WOpen → written s = flat (sent tr)) ∧
  (∀ prog, programs c = [prog] → pushes tr `prefix_of` lines_of prog) ∧
  (∀ k, worker s = WEmpty k → q_mutex_ s = None →
     ∃ s' evs,
       run c (replicate (5 * length (q_ s) + 1) RunWorker) s
       = Some (s', evs) ∧
       worker s' = after_drain k ∧ q_ s' = [] ∧ rows_out evs = q_ s ∧
       sent evs = as_line <$> q_ s ∧
       written s' = written s +:+ lines_text (q_ s)) ∧
  (∀ k, worker s = WEmpty k →
     ∃ sched s' evs,
       run c sched s = Some (s', evs) ∧
       worker s' = after_drain k ∧ q_ s' = [] ∧
       rows_out evs = q_ s ++ pushes evs ∧
       written s' = written s +:+ lines_text (q_ s ++ pushes evs)) ∧
  (∀ rows, programs c = [owner_program rows] → worker s = WFlush →
     rows_out tr = (λ r, comma_joined r.1 r.2) <$> rows ∧ q_ s = [] ∧
     written s = flat (header_block c) +:+
                 lines_text ((λ r, comma_joined r.1 r.2) <$> rows)).
Proof.
  intros Hr.
  destruct (queue_inv_reachable _ _ _ Hr) as [Hq _].
  destruct (stream_inv_reachable _ _ _ Hr) as (Hsent & _ & Hst).
  split; [done|]. split; [rewrite Hq; by apply prefix_app_r|].
  split; [done|]. split; [|split; [|split; [|split]]].
  - intros Hopen Hw. unfold written.
    destruct (worker s); try done; try by (destruct_and?).
    + by destruct Hst as [? _]; congruence.
    + rewrite Hopen in Hst. destruct Hst as (_ & -> & -> & _).
      simpl. by rewrite append_empty_r.
  - intros prog Hp.
    destruct (single_inv_reachable _ _ _ _ Hp Hr) as (cl & _ & <-).
    by apply prefix_app_r.
  - intros k Hw Hm. rewrite Hw in Hst. destruct Hst as (_ & Hopen & _).
    destruct (drain_runs c k _ s Hw eq_refl Hm)
      as (s' & evs & Hrun & Hw' & Hq' & _ & Hrows & _ & _ & Hwr).
    exists s', evs. split; [done|]. split; [done|]. split; [done|].
    split; [done|]. split; [|by apply Hwr].
    pose proof (run_reachable _ _ _ _ _ _ Hr Hrun) as Hr'.
    destruct (stream_inv_reachable _ _ _ Hr') as (Hsent' & _ & _).
    rewrite sent_app, rows_out_app, fmap_app, Hsent, app_assoc in Hsent'.
    rewrite Hw', Hw, Hrows in Hsent'.
    replace (header_done (after_drain k)) with true in Hsent'
      by (by destruct k).
    simpl in Hsent'. by apply app_inv_head in Hsent'.
  - intros k Hw. by apply (drain_completes c tr).
  - intros rows Hp Hw.
    assert ((λ r : field * list field, comma_joined r.1 r.2) <$> rows
            = (λ r, buildString r.1 r.2) <$> rows) as ->.
    { apply list_fmap_ext. intros _ r _.
      symmetry. apply buildString_comma_joined. }
    by apply (owner_rows_drained c rows tr).
Qed.

(** The owner has written both rows and waits in [join()]; the worker
    has reached its final [dumpQ()] and runs it. *)
Lemma drain_is_fifo_witness :
  ∃ s tr s' evs,
    run (header_example "P" None)
      (replicate 13 (RunCaller 0) ++ replicate 4 RunWorker)
      (init (header_example "P" None)) = Some (s, tr) ∧
    q_ s = ["1,2.000000,a"; "2,3.000000,b"] ∧
    run (header_example "P" None) (replicate 11 RunWorker) s
    = Some (s', evs) ∧
    worker s' = WFlush ∧ q_ s' = [] ∧
    rows_out evs = ["1,2.000000,a"; "2,3.000000,b"] ∧
    written s' = written s +:+
                 lines_text ["1,2.000000,a"; "2,3.000000,b"].
Proof.
  destruct (run (header_example "P" None)
              (replicate 13 (RunCaller 0) ++ replicate 4 RunWorker)
              (init (header_example "P" None))) as [[s tr]|] eqn:Hrun;
    [|by vm_compute in Hrun].
  destruct (drain_is_fifo (header_example "P" None) tr s
              (run_from_init _ _ _ _ Hrun))
    as (_ & _ & _ & _ & _ & Hdrain & _).
  vm_compute in Hrun. simplify_eq.
  destruct (Hdrain Final eq_refl eq_refl)
    as (s' & evs & Hrun' & Hw & Hq & Hrows & _ & Hwr).
  eexists _, _, s', evs. split; [reflexivity|]. split; [reflexivity|].
  split; [exact Hrun'|]. split; [exact Hw|]. split; [exact Hq|].
  split; [exact Hrows|exact Hwr].
Defined.

(** ** The notification of [write] *)

(** What an uninterrupted [write] does to the worker: its
    [notify_one()] wakes the worker if it is suspended in [wait], and
    has no effect otherwise. *)
Lemma write_runs_worker c i s t ts rest :
  callers s !! i = Some (mk_caller CIdle (write t ts :: rest)) →
  q_mutex_ s = None →
  ∃ s', run c (replicate 5 (RunCaller i)) s =
          Some (s', [EvPush i (buildString t ts);
                     EvNotify i (worker_waiting s)]) ∧
        worker s' = (if worker_waiting s then WWoken else worker s) ∧
        notify_mutex_ s' = notify_mutex_ s.
Proof.
  intros Hi Hm. pose proof (lookup_lt_Some _ _ _ Hi) as Hlt.
  destruct s as [out q qm nm st jn w cs f ce].
  cbn [callers q_mutex_ worker_waiting worker notify_mutex_] in *.
  subst qm.
  assert (∀ (l : list caller) x, length l = length cs →
            <[i:=x]> l !! i = Some x) as Hlook.
  { intros l x Hl. apply list_lookup_insert_eq. by rewrite Hl. }
  change (replicate 5 (RunCaller i)) with
    [RunCaller i; RunCaller i; RunCaller i; RunCaller i; RunCaller i].
  change [EvPush i (buildString t ts); EvNotify i (worker_waiting _)]
    with ([] ++ [] ++ [EvPush i (buildString t ts)] ++
          [EvNotify i (match w with WBlocked => true | _ => false end)] ++
          [] ++ @nil event).
  eexists. split.
  - eapply run_cons.
    { unfold step, caller_step. cbn [callers]. rewrite Hi. reflexivity. }
    eapply run_cons.
    { unfold step, caller_step, set_caller. cbn.
      rewrite Hlook by done. reflexivity. }
    eapply run_cons.
    { unfold step, caller_step, set_caller. cbn.
      rewrite Hlook by (by rewrite !length_insert). reflexivity. }
    eapply run_cons.
    { unfold step, caller_step, set_caller. rewrite notify_one_eq. cbn.
      rewrite Hlook by (by rewrite !length_insert). reflexivity. }
    eapply run_cons; [|reflexivity].
    unfold step, caller_step, set_caller. cbn.
    rewrite Hlook by (by rewrite !length_insert). reflexivity.
  - by cbn.
Qed.

(** C5.  [write] renders its fields as the comma-join of their texts,
    with nothing behind the last one; the push and the notification
    happen while the calling thread holds [q_mutex_]; a [write] pushes
    exactly that one string and then notifies, without touching the
    stream.  The notification acts on the worker: a worker suspended in
    [wait] is woken by it, and a woken worker re-acquires [notify_lock]
    and enters [dumpQ()]; a worker that is not waiting is left where it
    is.  The line feed is added by the worker when it sends the row to
    [out_]. *)
Theorem write_enqueues_one_line c tr s i :
  reachable c tr s →
  (∀ t ts, buildString t ts = comma_joined t ts) ∧
  (∀ cl, callers s !! i = Some cl → in_critical (pc cl) = true →
         q_mutex_ s = Some (ByCaller i)) ∧
  (∀ line td, callers s !! i = Some (mk_caller (CLocked line) td) →
     ∃ s', step c (RunCaller i) s = Some (s', [EvPush i line]) ∧
           q_ s' = q_ s ++ [line] ∧ written s' = written s ∧
           callers s' !! i = Some (mk_caller CPushed td) ∧
           q_mutex_ s' = Some (ByCaller i)) ∧
  (∀ td, callers s !! i = Some (mk_caller CPushed td) →
     ∃ s', step c (RunCaller i) s
           = Some (s', [EvNotify i (worker_waiting s)]) ∧
           worker s' = (if worker_waiting s then WWoken else worker s) ∧
           q_ s' = q_ s ∧ written s' = written s ∧
           callers s' !! i = Some (mk_caller CNotified td) ∧
           q_mutex_ s' = Some (ByCaller i)) ∧
  (∀ t ts rest,
     callers s !! i = Some (mk_caller CIdle (write t ts :: rest)) →
     q_mutex_ s = None →
     ∃ s', run c (replicate 5 (RunCaller i)) s =
             Some (s', [EvPush i (comma_joined t ts);
                        EvNotify i (worker_waiting s)]) ∧
           q_ s' = q_ s ++ [comma_joined t ts] ∧
           written s' = written s ∧
           callers s' !! i = Some (mk_caller CIdle rest) ∧
           q_mutex_ s' = None ∧
           worker s' = (if worker_waiting s then WWoken else worker s)) ∧
  (worker s = WBlocked → worker_waiting s = true) ∧
  (worker s = WWoken →
     ∃ s', step c RunWorker s = Some (s', []) ∧
           worker s' = WEmpty InLoop ∧ q_ s' = q_ s) ∧
  (∀ k f, worker s = WOut k f →
     ∃ s', step c RunWorker s = Some (s', [EvRow f]) ∧
           (is_open (out_ s) = true →
            written s' = written s +:+ f +:+ newline) ∧
           q_ s' = q_ s).
Proof.
  intros Hr. destruct (mutex_inv_reachable _ _ _ Hr) as [_ Hm].
  split; [apply buildString_comma_joined|].
  split; [apply Hm|].
  split; [|split; [|split; [|split; [|split]]]].
  - intros line td Hi. pose proof (lookup_lt_Some _ _ _ Hi) as Hlt.
    specialize (Hm _ _ Hi eq_refl).
    destruct s as [out q qm nm st jn w cs f ce]; simpl in *.
    unfold caller_step; simpl. rewrite Hi; simpl.
    eexists. split; [done|]. simpl. repeat split; try done.
    by apply list_lookup_insert_eq.
  - intros td Hi. pose proof (lookup_lt_Some _ _ _ Hi) as Hlt.
    specialize (Hm _ _ Hi eq_refl).
    destruct s as [out q qm nm st jn w cs f ce]; simpl in *.
    unfold caller_step; simpl. rewrite Hi; simpl.
    rewrite notify_one_eq. eexists. split; [done|]. simpl.
    repeat split; try done.
    by apply list_lookup_insert_eq.
  - intros t ts rest Hi Hfree.
    destruct (write_runs c i s t ts rest Hi Hfree)
      as (s' & Hrun & Hq' & Hc' & Hm' & Ho' & Hf' & _).
    destruct (write_runs_worker c i s t ts rest Hi Hfree)
      as (s'' & Hrun' & Hw' & _).
    rewrite Hrun in Hrun'. simplify_eq.
    rewrite <- buildString_comma_joined. exists s''.
    unfold written. by rewrite Ho', Hf'.
  - unfold worker_waiting. by intros ->.
  - intros Hw. pose proof (notify_inv_reachable _ _ _ Hr) as Hn.
    unfold notify_inv in Hn. rewrite Hw in Hn. simpl in Hn.
    destruct s as [out q qm nm st jn w cs f ce]; simpl in *. subst.
    unfold worker_step; simpl. by eexists.
  - intros k f Hw.
    destruct s as [[op pend] q qm nm st jn w cs fl ce]; simpl in *. subst w.
    unfold worker_step; simpl. eexists. split; [done|].
    unfold stream_put, written; simpl. split; [|by destruct op].
    intros ->. simpl. by rewrite append_assoc.
Qed.

(** The worker parks in [wait]; the owner's first [write] then finds it
    there and wakes it. *)
Lemma write_enqueues_one_line_witness :
  ∃ s tr s',
    run (header_example "P" None) (replicate 5 RunWorker)
      (init (header_example "P" None)) = Some (s, tr) ∧
    worker s = WBlocked ∧
    run (header_example "P" None) (replicate 5 (RunCaller 0)) s
    = Some (s', [EvPush 0 "1,2.000000,a"; EvNotify 0 true]) ∧
    q_ s' = ["1,2.000000,a"] ∧ q_mutex_ s' = None ∧ worker s' = WWoken.
Proof.
  destruct (run (header_example "P" None) (replicate 5 RunWorker)
              (init (header_example "P" None))) as [[s tr]|] eqn:Hrun;
    [|by vm_compute in Hrun].
  destruct (write_enqueues_one_line (header_example "P" None) tr s 0
              (run_from_init _ _ _ _ Hrun))
    as (_ & _ & _ & _ & Hwrite & _).
  vm_compute in Hrun. simplify_eq.
  destruct (Hwrite (FInt 1) [FDouble two; FString "a"]
              [write (FInt 2) [FDouble three; FString "b"]; destroy]
              eq_refl eq_refl) as (s' & Hs' & Hq & _ & _ & Hm & Hw).
  eexists _, _, s'. split; [reflexivity|]. split; [reflexivity|].
  split; [exact Hs'|]. split; [exact Hq|]. split; [exact Hm|exact Hw].
Defined.
